(** * AvatarPlayer: asset loading and audio-synchronised playback

    A shallow embedding of the [AvatarPlayer] React component: the frame
    loader ([loadFrames], [createBitmap]), the renderer ([drawFrame]), the
    requestAnimationFrame loop ([tick]), the asynchronous [setup] of the
    top-level effect and its cleanup, and the handler of the start button
    ([handleStart]); and of the manifest generator [buildAvatarAssets].

    Conventions of the embedding.
    - A JavaScript number is a rational ([Q]), and the arithmetic on times,
      rates and sizes is that of binary64: the exact result, rounded to the
      nearest double, ties to even ([round64]). Magnitudes of [2^1024] and
      more, which the code would turn into [Infinity], are outside the domain
      of the embedding. A frame index is an integer, and [NaN] is [None] in
      an [option Z].
    - An array that may have empty slots is a [list (option _)].
    - A rejected promise or a thrown exception is the left injection of a
      sum; mutations made before the throw stay in the state.
    - The browser (network, decoder, archive reader, URL resolution) is a
      record of functions, a parameter of every definition that uses it.
    - An [async] function is cut at its [await]s: one definition for each
      segment that runs without suspension. A promise chain that touches no
      shared state ([fetch(...).then(r => r.blob()).then(createBitmap)]) is
      one step.
    - The calls the component makes ([drawFrame], [requestAnimationFrame],
      [close], the callback props, ...) are recorded in a trace.

    Of the JSX, what is embedded is which of the button and the canvas is
    rendered: the canvas element exists once [handleStart] has run. *)

From Stdlib Require Import ZArith QArith Qround Qpower Lia Lqa Sorted.
From Stdlib Require OrderedTypeEx Floats.SpecFloat.
From stdpp Require Import base option list strings gmap sorting.

Local Open Scope Z_scope.
Local Open Scope nat_scope.

(** ** Values *)

Definition Blob := string.

(** [ImageBitmap | HTMLImageElement]: only the first has a [close] method. *)
Inductive Frame :=
  | ImageBitmap (data : Blob)
  | HTMLImageElement (data : Blob).

Inductive exn :=
  | Error (msg : string)
  | NetworkError (url : string)
  | DecodeError (data : Blob)
  | ErrorEvent (data : Blob)
  | TypeError (what : string)
  | AudioError.

Definition Result (A : Type) : Type := exn + A.

Definition rbind {A B} (r : Result A) (k : A -> Result B) : Result B :=
  match r with
  | inl e => inl e
  | inr a => k a
  end.

Notation "'try!' x := r 'in' k" := (rbind r (fun x => k))
  (at level 10, x name, r at level 100, k at level 200).

Record Manifest := {
  basePath : option string;
  frames : list string;
  fps : option Q;
  width : option Q;
  height : option Q;
  audio : string;
  zip : option string
}.

Record Browser := {
  origin : string;                               (* window.location.origin *)
  href : string -> string -> string;             (* new URL(rel, base).href *)
  fetch_blob : string -> Result Blob;            (* fetch(url).then(r => r.blob()) *)
  fetch_json : string -> Result Manifest;        (* fetch(url).then(r => r.json()) *)
  has_createImageBitmap : bool;                  (* "createImageBitmap" in window *)
  decodes : Blob -> bool;                        (* the image data is decodable *)
  zip_entries : Blob -> Result (list (string * Blob)) (* the archive, entry by entry *)
}.

Definition MAX_CONCURRENT_REQUESTS : nat := 8.

(** JavaScript truthiness of an optional string / number. *)
Definition truthy_str (o : option string) : bool :=
  match o with
  | Some s => negb (String.eqb s EmptyString)
  | None => false
  end.

Definition truthy_num (o : option Q) : bool :=
  match o with
  | Some q => negb (Qeq_bool q 0)
  | None => false
  end.

(** ** Numbers

    The value of a binary64 operation is the exact result rounded to the
    nearest double, ties to even: 53 significant bits, the exponent of the
    last one not below -1074. *)

Definition pow2 (e : Z) : Q := (2 ^ e)%Q.

(** The largest [e] with [2^e <= a], for a positive [a]. *)
Definition ilog2 (a : Q) : Z :=
  let k := (Z.log2 (Qnum a) - Z.log2 (Zpos (Qden a)))%Z in
  if Qle_bool (pow2 k) a then k else (k - 1)%Z.

(** The nearest integer, the even one of two that are equally near. *)
Definition rne (x : Q) : Z :=
  let f := Qfloor x in
  match (x - inject_Z f ?= 1 # 2)%Q with
  | Lt => f
  | Gt => (f + 1)%Z
  | Eq => if Z.even f then f else (f + 1)%Z
  end.

(** A positive [a] rounded: [e] is the exponent of the last of its 53 bits,
    or -1074 when [a] is too small for that. *)
Definition round_pos (a : Q) : Q :=
  let e := Z.max (ilog2 a - 52) (-1074) in
  (inject_Z (rne (a / pow2 e)) * pow2 e)%Q.

Definition round64 (x : Q) : Q :=
  match (x ?= 0)%Q with
  | Eq => 0%Q
  | Gt => round_pos x
  | Lt => (- round_pos (- x))%Q
  end.

(** The same operations as the standard library specifies them
    ([SpecFloat], after Flocq's IEEE 754 formalisation), to compare with: a
    binary64 value from a significand and an exponent, the rational it
    stands for, and whether an operation on two values agrees with the
    rounded exact result. *)
Definition f64 (m e : Z) : SpecFloat.spec_float :=
  SpecFloat.binary_normalize 53 1024 m e false.

Definition f64_value (x : SpecFloat.spec_float) : Q :=
  match x with
  | SpecFloat.S754_finite s m e =>
      (inject_Z (SpecFloat.cond_Zopp s (Zpos m)) * pow2 e)%Q
  | _ => 0%Q
  end.

Definition f64_agree
    (op : SpecFloat.spec_float -> SpecFloat.spec_float -> SpecFloat.spec_float)
    (qop : Q -> Q -> Q) (ab : SpecFloat.spec_float * SpecFloat.spec_float)
    : bool :=
  Qeq_bool (f64_value (op ab.1 ab.2))
           (round64 (qop (f64_value ab.1) (f64_value ab.2))).

(** Operands whose results are exact, inexact, ties, subnormal, or next to a
    power of two; the first are those of the frame index at 0.29 s and
    100 frames per second. *)
Definition f64_samples : list (SpecFloat.spec_float * SpecFloat.spec_float) :=
  [ (f64 290 0, f64 1000 0);
    (SpecFloat.SFdiv 53 1024 (f64 290 0) (f64 1000 0), f64 100 0);
    (SpecFloat.SFdiv 53 1024 (f64 1160 0) (f64 1000 0), f64 25 0);
    (f64 350 0, f64 1000 0);
    (f64 1 0, f64 3 0);
    (f64 (-7) (-3), f64 11 100);
    (f64 9007199254740991 0, f64 9007199254740991 0);
    (f64 9007199254740991 0, f64 3 0);
    (f64 (-4503599627370497) 0, f64 3 (-5));
    (f64 1 (-600), f64 3 (-476));
    (f64 1 (-600), f64 1 (-475));
    (f64 1 (-600), f64 5 (-477));
    (f64 1 (-600), f64 7 (-477));
    (f64 (-123456789) (-700), f64 987654321 (-400));
    (f64 9007199254740991 (-1074), f64 3 (-1));
    (f64 1 (-1074), f64 1 (-1));
    (f64 3 (-1074), f64 1 (-1)) ]%Z.

(** [a - b], [a * b] and [a / b] on numbers. *)
Definition js_sub (a b : Q) : Q := round64 (a - b).
Definition js_mul (a b : Q) : Q := round64 (a * b).
Definition js_div (a b : Q) : Q := round64 (a / b).

(** ** createBitmap *)

Definition createBitmap (B : Browser) (blob : Blob) : Result Frame :=
  if has_createImageBitmap B then
    if decodes B blob then inr (ImageBitmap blob) else inl (DecodeError blob)
  else
    if decodes B blob then inr (HTMLImageElement blob) else inl (ErrorEvent blob).

(** ** loadFrames, archive mode *)

(** [JSZip.loadAsync]: the entries are stored in an object keyed by name, a
    later entry of the same name replacing an earlier one. *)
Definition loadAsync (entries : list (string * Blob)) : gmap string Blob :=
  foldl (fun m e => <[e.1 := e.2]> m) ∅ entries.

Definition missing_msg (name : string) : string :=
  String.append "Missing " (String.append name " inside ZIP").

(** The [for (const name of orderedNames)] loop; [bitmaps] is the
    accumulator that [push] extends. *)
Fixpoint zip_loop (B : Browser) (jszip : gmap string Blob)
    (names : list string) (bitmaps : list (option Frame))
    : Result (list (option Frame)) :=
  match names with
  | [] => inr bitmaps
  | name :: rest =>
      match jszip !! name with
      | None => inl (Error (missing_msg name))
      | Some fileBlob =>
          try! bmp := createBitmap B fileBlob in
          zip_loop B jszip rest (bitmaps ++ [Some bmp])
      end
  end.

(** ** loadFrames, individual mode: the worker pool

    The state shared by the workers ([index], [results]) and the state of the
    promises: one entry of [inflight] for every worker suspended at its
    [await], holding the worker's local [i] and the URL it fetches;
    [fulfilled] counts the workers that left their loop; [rejection] is the
    reason [Promise.all] rejected with, if it did. [fetched] logs the calls
    of [fetch]. *)
Record Pool := {
  queue : list string;
  index : nat;
  results : list (option Frame);
  inflight : list (nat * string);
  nworkers : nat;
  fulfilled : nat;
  rejection : option exn;
  fetched : list string
}.

Definition fetchBitmap (B : Browser) (url : string) : Result Frame :=
  try! blob := fetch_blob B url in createBitmap B blob.

(** One worker from the head of its [while] to its next [await], or to its
    end. *)
Definition worker (p : Pool) : Pool :=
  if index p <? length (queue p) then
    let i := index p in
    let url := queue p !!! i in
    {| queue := queue p; index := S i; results := results p;
       inflight := inflight p ++ [(i, url)];
       nworkers := nworkers p; fulfilled := fulfilled p;
       rejection := rejection p; fetched := fetched p ++ [url] |}
  else
    {| queue := queue p; index := index p; results := results p;
       inflight := inflight p;
       nworkers := nworkers p; fulfilled := S (fulfilled p);
       rejection := rejection p; fetched := fetched p |}.

Definition set_result (i : nat) (bmp : Frame) (p : Pool) : Pool :=
  {| queue := queue p; index := index p;
     results := <[i := Some bmp]> (results p);
     inflight := inflight p;
     nworkers := nworkers p; fulfilled := fulfilled p;
     rejection := rejection p; fetched := fetched p |}.

Definition reject (e : exn) (p : Pool) : Pool :=
  {| queue := queue p; index := index p; results := results p;
     inflight := inflight p;
     nworkers := nworkers p; fulfilled := fulfilled p;
     rejection := match rejection p with Some e0 => Some e0 | None => Some e end;
     fetched := fetched p |}.

Definition drop_inflight (j : nat) (p : Pool) : Pool :=
  {| queue := queue p; index := index p; results := results p;
     inflight := delete j (inflight p);
     nworkers := nworkers p; fulfilled := fulfilled p;
     rejection := rejection p; fetched := fetched p |}.

(** The worker that awaited [url] for slot [i] resumes. *)
Definition resume (B : Browser) (i : nat) (url : string) (p : Pool) : Pool :=
  match fetchBitmap B url with
  | inr bmp => worker (set_result i bmp p)
  | inl e => reject e p
  end.

(** The network completes one of the outstanding requests: the one at
    position [k mod length inflight], so that every [k] names one. *)
Definition complete (B : Browser) (p : Pool) (k : nat) : Pool :=
  let j := k mod length (inflight p) in
  match inflight p !! j with
  | Some (i, url) => resume B i url (drop_inflight j p)
  | None => p
  end.

(** [const results = new Array(queue.length); let index = 0;] and then
    [Array.from({length: Math.min(MAX_CONCURRENT_REQUESTS, queue.length)},
    () => worker())]: every worker runs to its first [await] at once. *)
Definition pool_start (q : list string) : Pool :=
  {| queue := q; index := 0; results := replicate (length q) None;
     inflight := [];
     nworkers := Nat.min MAX_CONCURRENT_REQUESTS (length q);
     fulfilled := 0; rejection := None; fetched := [] |}.

Definition spawn (q : list string) : Pool :=
  Nat.iter (Nat.min MAX_CONCURRENT_REQUESTS (length q)) worker (pool_start q).

Definition run_pool (B : Browser) (arrivals : list nat) (p : Pool) : Pool :=
  foldl (complete B) p arrivals.

(** What [await Promise.all(...)] followed by [return results] gives:
    [None] while the promise is pending. *)
Definition outcome (p : Pool) : option (Result (list (option Frame))) :=
  match rejection p with
  | Some e => Some (inl e)
  | None =>
      if fulfilled p =? nworkers p then Some (inr (results p)) else None
  end.

(** ** loadFrames *)

Definition base_url (B : Browser) (manifestUrl : string) (bp : option string)
    : string :=
  if truthy_str bp then href B (default EmptyString bp) (origin B)
  else if negb (String.eqb manifestUrl EmptyString) then href B manifestUrl (origin B)
  else origin B.

Definition loadFrames (B : Browser) (manifestUrl : string) (m : Manifest)
    (arrivals : list nat) : option (Result (list (option Frame))) :=
  let base := base_url B manifestUrl (basePath m) in
  if truthy_str (zip m) then
    let zipUrl := href B (default EmptyString (zip m)) base in
    Some (try! blob := fetch_blob B zipUrl in
          try! entries := zip_entries B blob in
          zip_loop B (loadAsync entries) (frames m) [])
  else
    let q := map (fun fname => href B fname base) (frames m) in
    outcome (run_pool B arrivals (spawn q)).

(** ** The component: props, refs and the browser state they act on *)

(** A callback prop is opaque: the record says whether it was supplied, and
    a call of it is an event of the trace. *)
Record Props := {
  manifestUrl : string;
  fpsProp : option Q;
  canvasWidth : option Q;
  loop : bool;
  onReady : bool;
  onEnd : bool;
  onError : bool
}.

Record Audio := {
  src : string;
  ended : bool;
  paused : bool;
  currentTime : Q
}.

Record Canvas := {
  cwidth : Z;                    (* the [width] attribute, an unsigned long *)
  cheight : Z;
  style_width : option Q;        (* the inline [width], in px, if there is one *)
  style_height : option Q;
  style_display : option string;
  shown : option Frame           (* what the last drawImage painted *)
}.

Inductive Event :=
  | DrawFrame (i : option Z)
  | RequestFrame (h : nat)
  | CancelFrame (h : nat)
  | AudioLoad
  | AudioPlay
  | AudioPause
  | Close (f : Frame)
  | SetReady
  | OnReady
  | OnEnd
  | OnError (e : exn)
  | ConsoleError (e : exn).

(** Where the [async function setup] is suspended. *)
Inductive SetupPc :=
  | AwaitManifest
  | AwaitFrames (manifest : Manifest)
  | AwaitCanPlayThrough
  | AwaitPlay
  | Returned.

Record St := {
  manifestRef : option Manifest;
  framesRef : list (option Frame);
  audioRef : option Audio;
  rafRef : option nat;
  startTimeRef : Q;
  currentFrameRef : option Z;
  canvasRef : option Canvas;
  isMounted : bool;              (* the [let] of the effect's closure *)
  pc : SetupPc;
  rafQueue : list nat;           (* callbacks the browser still owes *)
  nextHandle : nat;
  trace : list Event
}.

Definition set_manifestRef (v : option Manifest) (s : St) : St :=
  {| manifestRef := v; framesRef := framesRef s; audioRef := audioRef s;
     rafRef := rafRef s; startTimeRef := startTimeRef s;
     currentFrameRef := currentFrameRef s; canvasRef := canvasRef s;
     isMounted := isMounted s; pc := pc s; rafQueue := rafQueue s;
     nextHandle := nextHandle s; trace := trace s |}.

Definition set_framesRef (v : list (option Frame)) (s : St) : St :=
  {| manifestRef := manifestRef s; framesRef := v; audioRef := audioRef s;
     rafRef := rafRef s; startTimeRef := startTimeRef s;
     currentFrameRef := currentFrameRef s; canvasRef := canvasRef s;
     isMounted := isMounted s; pc := pc s; rafQueue := rafQueue s;
     nextHandle := nextHandle s; trace := trace s |}.

Definition set_audioRef (v : option Audio) (s : St) : St :=
  {| manifestRef := manifestRef s; framesRef := framesRef s; audioRef := v;
     rafRef := rafRef s; startTimeRef := startTimeRef s;
     currentFrameRef := currentFrameRef s; canvasRef := canvasRef s;
     isMounted := isMounted s; pc := pc s; rafQueue := rafQueue s;
     nextHandle := nextHandle s; trace := trace s |}.

Definition set_rafRef (v : option nat) (s : St) : St :=
  {| manifestRef := manifestRef s; framesRef := framesRef s;
     audioRef := audioRef s; rafRef := v; startTimeRef := startTimeRef s;
     currentFrameRef := currentFrameRef s; canvasRef := canvasRef s;
     isMounted := isMounted s; pc := pc s; rafQueue := rafQueue s;
     nextHandle := nextHandle s; trace := trace s |}.

Definition set_startTimeRef (v : Q) (s : St) : St :=
  {| manifestRef := manifestRef s; framesRef := framesRef s;
     audioRef := audioRef s; rafRef := rafRef s; startTimeRef := v;
     currentFrameRef := currentFrameRef s; canvasRef := canvasRef s;
     isMounted := isMounted s; pc := pc s; rafQueue := rafQueue s;
     nextHandle := nextHandle s; trace := trace s |}.

Definition set_currentFrameRef (v : option Z) (s : St) : St :=
  {| manifestRef := manifestRef s; framesRef := framesRef s;
     audioRef := audioRef s; rafRef := rafRef s;
     startTimeRef := startTimeRef s; currentFrameRef := v;
     canvasRef := canvasRef s; isMounted := isMounted s; pc := pc s;
     rafQueue := rafQueue s; nextHandle := nextHandle s; trace := trace s |}.

Definition set_canvasRef (v : option Canvas) (s : St) : St :=
  {| manifestRef := manifestRef s; framesRef := framesRef s;
     audioRef := audioRef s; rafRef := rafRef s;
     startTimeRef := startTimeRef s; currentFrameRef := currentFrameRef s;
     canvasRef := v; isMounted := isMounted s; pc := pc s;
     rafQueue := rafQueue s; nextHandle := nextHandle s; trace := trace s |}.

Definition set_isMounted (v : bool) (s : St) : St :=
  {| manifestRef := manifestRef s; framesRef := framesRef s;
     audioRef := audioRef s; rafRef := rafRef s;
     startTimeRef := startTimeRef s; currentFrameRef := currentFrameRef s;
     canvasRef := canvasRef s; isMounted := v; pc := pc s;
     rafQueue := rafQueue s; nextHandle := nextHandle s; trace := trace s |}.

Definition set_pc (v : SetupPc) (s : St) : St :=
  {| manifestRef := manifestRef s; framesRef := framesRef s;
     audioRef := audioRef s; rafRef := rafRef s;
     startTimeRef := startTimeRef s; currentFrameRef := currentFrameRef s;
     canvasRef := canvasRef s; isMounted := isMounted s; pc := v;
     rafQueue := rafQueue s; nextHandle := nextHandle s; trace := trace s |}.

Definition set_raf (q : list nat) (n : nat) (s : St) : St :=
  {| manifestRef := manifestRef s; framesRef := framesRef s;
     audioRef := audioRef s; rafRef := rafRef s;
     startTimeRef := startTimeRef s; currentFrameRef := currentFrameRef s;
     canvasRef := canvasRef s; isMounted := isMounted s; pc := pc s;
     rafQueue := q; nextHandle := n; trace := trace s |}.

Definition emit (e : Event) (s : St) : St :=
  {| manifestRef := manifestRef s; framesRef := framesRef s;
     audioRef := audioRef s; rafRef := rafRef s;
     startTimeRef := startTimeRef s; currentFrameRef := currentFrameRef s;
     canvasRef := canvasRef s; isMounted := isMounted s; pc := pc s;
     rafQueue := rafQueue s; nextHandle := nextHandle s;
     trace := trace s ++ [e] |}.

(** What a freshly rendered component holds ([useRef] initial values). *)
Definition initial (canvas : option Canvas) : St :=
  {| manifestRef := None; framesRef := []; audioRef := None; rafRef := None;
     startTimeRef := 0; currentFrameRef := Some 0%Z; canvasRef := canvas;
     isMounted := false; pc := Returned; rafQueue := []; nextHandle := 1;
     trace := [] |}.

(** ** Browser primitives *)

Definition requestAnimationFrame (s : St) : nat * St :=
  let h := nextHandle s in
  (h, emit (RequestFrame h) (set_raf (rafQueue s ++ [h]) (S h) s)).

Definition cancelAnimationFrame (h : nat) (s : St) : St :=
  emit (CancelFrame h)
    (set_raf (filter (fun h' => h' ≠ h) (rafQueue s)) (nextHandle s) s).

(** [arr[index]] for a number that may be negative or [NaN]; an empty slot
    reads as [undefined] too. *)
Definition js_get {A} (arr : list (option A)) (index : option Z) : option A :=
  match index with
  | Some z => if (z <? 0)%Z then None else mjoin (arr !! Z.to_nat z)
  | None => None
  end.

(** [a % b] on integers: the sign of the dividend, [NaN] for a zero divisor. *)
Definition js_rem (a b : Z) : option Z :=
  if (b =? 0)%Z then None else Some (Z.rem a b).

(** [a !== b] on numbers: [NaN] differs from everything, itself included. *)
Definition js_neq (a b : option Z) : bool :=
  match a, b with
  | Some x, Some y => negb (x =? y)%Z
  | _, _ => true
  end.

Definition or_num (o : option Q) (d : Q) : Q :=
  if truthy_num o then default 0%Q o else d.

(** ** drawFrame *)

Definition paint (f : Frame) (c : Canvas) : Canvas :=
  {| cwidth := cwidth c; cheight := cheight c;
     style_width := style_width c; style_height := style_height c;
     style_display := style_display c; shown := Some f |}.

Definition drawFrame (index : option Z) (s : St) : St :=
  let s := emit (DrawFrame index) s in
  match canvasRef s, js_get (framesRef s) index with
  | Some ctx, Some frame => set_canvasRef (Some (paint frame ctx)) s
  | _, _ => s
  end.

(** ** tick *)

Definition restart (a : Audio) : Audio :=
  {| src := src a; ended := false; paused := false; currentTime := 0 |}.

(** [fpsProp || manifest.fps || 25] *)
Definition effective_fps (P : Props) (manifest : Manifest) : Q :=
  or_num (fpsProp P) (or_num (fps manifest) 25).

(** [Math.floor(elapsed * fps)], [now] being what [performance.now()]
    returns, in milliseconds. *)
Definition frame_index (P : Props) (manifest : Manifest) (now : Q) (s : St) : Z :=
  let fps := effective_fps P manifest in
  let elapsed := js_div (js_sub now (startTimeRef s)) 1000 in
  Qfloor (js_mul elapsed fps).

(** From [if (frameIdx !== currentFrameRef.current)] to the end of [tick]. *)
Definition tick_draw (frameIdx : option Z) (s : St) : St :=
  let s :=
    if js_neq frameIdx (currentFrameRef s)
    then drawFrame frameIdx (set_currentFrameRef frameIdx s)
    else s in
  let (h, s) := requestAnimationFrame s in
  set_rafRef (Some h) s.

Definition tick (P : Props) (now : Q) (s : St) : St :=
  match manifestRef s with
  | None => s
  | Some manifest =>
      let frameIdx := frame_index P manifest now s in
      let len := Z.of_nat (length (framesRef s)) in
      if (len <=? frameIdx)%Z then
        if loop P then
          let s :=
            match audioRef s with
            | Some a =>
                if ended a
                then emit AudioPlay (set_audioRef (Some (restart a)) s)
                else s
            | None => s
            end in
          tick_draw (js_rem frameIdx len) s
        else
          let s := drawFrame (Some (len - 1)%Z) s in
          let s :=
            match rafRef s with
            | Some h => cancelAnimationFrame h s
            | None => s
            end in
          if onEnd P then emit OnEnd s else s
      else tick_draw (Some frameIdx) s
  end.

(** One display refresh at time [now]: the browser runs the callback it
    owes, if any. *)
Definition refresh (P : Props) (now : Q) (s : St) : St :=
  match rafQueue s with
  | [] => s
  | _ :: q => tick P now (set_raf q (nextHandle s) s)
  end.

(** ** The effect: setup, cut at its awaits, and the cleanup *)

(** The [catch] block of [setup]. *)
Definition setup_catch (P : Props) (err : exn) (s : St) : St :=
  let s :=
    if isMounted s
    then (if onError P then emit (OnError err) s else emit (ConsoleError err) s)
    else s in
  set_pc Returned s.

(** A number converted to an [unsigned long]: truncated, modulo [2^32]. *)
Definition to_unsigned_long (v : Q) : Z :=
  (Z.quot (Qnum v) (Zpos (Qden v)) mod 2 ^ 32)%Z.

(** [canvas.width = v]: the attribute takes the converted value when it is at
    most [2^31 - 1], and its default otherwise. *)
Definition set_dimension (default : Z) (v : Q) : Z :=
  let n := to_unsigned_long v in
  if (n <=? 2147483647)%Z then n else default.

(** [canvas.style.width = `${v}px`]: a negative length is not a value of the
    property, and the declaration then stays as it was. *)
Definition set_length (v : Q) (old : option Q) : option Q :=
  if Qle_bool 0 v then Some v else old.

(** The four assignments of the sizing step and the one of [display];
    setting a dimension clears the canvas. *)
Definition resize (w h : Q) (c : Canvas) : Canvas :=
  {| cwidth := set_dimension 300 w; cheight := set_dimension 150 h;
     style_width := set_length w (style_width c);
     style_height := set_length h (style_height c);
     style_display := Some "block"; shown := None |}.

Definition new_Audio (url : string) : Audio :=
  {| src := url; ended := false; paused := true; currentTime := 0 |}.

(** The effect body: [let isMounted = true; ... setup();] up to the first
    [await]. *)
Definition mount (s : St) : St :=
  set_pc AwaitManifest (set_isMounted true s).

(** 1. Manifest and 2. canvas sizing, up to the call of [loadFrames]. *)
Definition setup_manifest (P : Props) (B : Browser) (s : St) : St :=
  match fetch_json B (manifestUrl P) with
  | inl err => setup_catch P err s
  | inr manifest =>
      if negb (isMounted s) then set_pc Returned s
      else
        let s := set_manifestRef (Some manifest) s in
        let w := or_num (canvasWidth P) (or_num (width manifest) 1280) in
        let h := or_num (height manifest) (js_div (js_mul w 9) 16) in
        let s :=
          match canvasRef s with
          | Some c => set_canvasRef (Some (resize w h c)) s
          | None => s
          end in
        set_pc (AwaitFrames manifest) s
  end.

(** 3. Frames, from the settling of [loadFrames], and 4. audio up to the
    wait for [canplaythrough]. *)
Definition setup_frames (P : Props) (B : Browser) (manifest : Manifest)
    (r : Result (list (option Frame))) (s : St) : St :=
  match r with
  | inl err => setup_catch P err s
  | inr loaded =>
      let s := set_framesRef loaded s in
      if negb (isMounted s) then set_pc Returned s
      else
        let base := base_url B (manifestUrl P) (basePath manifest) in
        let audioUrl := href B (audio manifest) base in
        let s := set_audioRef (Some (new_Audio audioUrl)) s in
        set_pc AwaitCanPlayThrough (emit AudioLoad s)
  end.

(** [canplaythrough] fired: [await audioRef.current.play()] is called. *)
Definition setup_canplay (P : Props) (s : St) : St :=
  match audioRef s with
  | None => setup_catch P (TypeError "audioRef.current is null") s
  | Some a =>
      let a := {| src := src a; ended := ended a; paused := false;
                  currentTime := currentTime a |} in
      set_pc AwaitPlay (emit AudioPlay (set_audioRef (Some a) s))
  end.

(** 5. Ready: the promise of [play()] settled with [r] at time [now]. *)
Definition setup_play (P : Props) (r : Result unit) (now : Q) (s : St) : St :=
  match r with
  | inl err => setup_catch P err s
  | inr _ =>
      let s := set_startTimeRef now s in
      let s := drawFrame (Some 0%Z) s in
      let (h, s) := requestAnimationFrame s in
      let s := set_rafRef (Some h) s in
      let s := emit SetReady s in
      let s := if onReady P then emit OnReady s else s in
      set_pc Returned s
  end.

(** [f.close()]: a [TypeError] when [f] has no such method. *)
Definition call_close (f : Frame) (s : St) : Result St :=
  match f with
  | ImageBitmap _ => inr (emit (Close f) s)
  | HTMLImageElement _ => inl (TypeError "f.close is not a function")
  end.

(** ["close" in f && typeof f.close === "function"] *)
Definition has_close (f : Frame) : bool :=
  match f with
  | ImageBitmap _ => true
  | HTMLImageElement _ => false
  end.

(** [framesRef.current.forEach(...)]: empty slots are skipped. *)
Fixpoint close_all (fs : list (option Frame)) (s : St) : Result St :=
  match fs with
  | [] => inr s
  | None :: rest => close_all rest s
  | Some f :: rest =>
      try! s' := (if has_close f then call_close f s else inr s) in
      close_all rest s'
  end.

(** The function the effect returns. *)
Definition cleanup (s : St) : Result St :=
  let s := set_isMounted false s in
  let s :=
    match rafRef s with
    | Some h => cancelAnimationFrame h s
    | None => s
    end in
  let s :=
    match audioRef s with
    | Some a =>
        emit AudioPause
          (set_audioRef
             (Some {| src := src a; ended := ended a; paused := true;
                      currentTime := currentTime a |}) s)
    | None => s
    end in
  try! s' := close_all (framesRef s) s in
  inr (set_framesRef [] s').

(** ** A session as a sequence of inputs *)

Inductive Input :=
  | ManifestResponse
  | FramesSettled (arrivals : list nat)
  | CanPlayThrough
  | PlaySettled (r : Result unit) (now : Q)
  | Refresh (now : Q)
  | Unmount.

Definition step (P : Props) (B : Browser) (s : St) (i : Input) : Result St :=
  match i, pc s with
  | ManifestResponse, AwaitManifest => inr (setup_manifest P B s)
  | FramesSettled arrivals, AwaitFrames manifest =>
      match loadFrames B (manifestUrl P) manifest arrivals with
      | Some r => inr (setup_frames P B manifest r s)
      | None => inr s
      end
  | CanPlayThrough, AwaitCanPlayThrough => inr (setup_canplay P s)
  | PlaySettled r now, AwaitPlay => inr (setup_play P r now s)
  | Refresh now, _ => inr (refresh P now s)
  | Unmount, _ => cleanup s
  | _, _ => inr s
  end.

Fixpoint run (P : Props) (B : Browser) (inputs : list Input) (s : St)
    : Result St :=
  match inputs with
  | [] => inr s
  | i :: rest => try! s' := step P B s i in run P B rest s'
  end.

(** The ticks of a playback: one refresh at each of the given times. *)
Definition play (P : Props) (times : list Q) (s : St) : St :=
  foldl (fun s now => refresh P now s) s times.

(** ** Reading a trace *)

Definition drawn (tr : list Event) : list (option Z) :=
  omap (fun e => match e with DrawFrame i => Some i | _ => None end) tr.

Definition closed (tr : list Event) : list Frame :=
  omap (fun e => match e with Close f => Some f | _ => None end) tr.

Definition count_event (P : Event -> bool) (tr : list Event) : nat :=
  length (List.filter P tr).

Definition is_OnEnd (e : Event) : bool :=
  match e with OnEnd => true | _ => false end.

Definition is_RequestFrame (e : Event) : bool :=
  match e with RequestFrame _ => true | _ => false end.

Definition is_AudioPlay (e : Event) : bool :=
  match e with AudioPlay => true | _ => false end.

Definition is_DrawFrame (e : Event) : bool :=
  match e with DrawFrame _ => true | _ => false end.

(** The same browser serving another archive. *)
Definition with_archive (B : Browser) (entries : list (string * Blob)) : Browser :=
  {| origin := origin B; href := href B; fetch_blob := fetch_blob B;
     fetch_json := fetch_json B;
     has_createImageBitmap := has_createImageBitmap B; decodes := decodes B;
     zip_entries := fun _ => inr entries |}.


(** ** Invariant of the worker pool

    [w] workers have been started on the queue [q]. *)
Record pool_inv (B : Browser) (q : list string) (w : nat) (p : Pool) : Prop := {
  inv_queue : queue p = q;
  inv_results : length (results p) = length q;
  inv_index : index p ≤ length q;
  inv_fetched : fetched p = take (index p) q;
  inv_inflight : ∀ i url, (i, url) ∈ inflight p → i < index p ∧ q !! i = Some url;
  inv_nodup : NoDup (inflight p).*1;
  inv_done : ∀ i, i < index p → i ∉ (inflight p).*1 →
      match fetchBitmap B (q !!! i) with
      | inr bmp => results p !! i = Some (Some bmp)
      | inl _ => rejection p ≠ None
      end;
  inv_workers : length (inflight p) + fulfilled p ≤ w;
  inv_workers_eq : rejection p = None → length (inflight p) + fulfilled p = w;
  inv_fulfilled : 0 < fulfilled p → index p = length q;
  inv_nworkers : nworkers p = Nat.min MAX_CONCURRENT_REQUESTS (length q);
  inv_rejection : ∀ e, rejection p = Some e → ∃ url, url ∈ q ∧ fetchBitmap B url = inl e
}.

(** What is left to do: the unclaimed slots and the outstanding requests. *)
Definition pending_work (p : Pool) : nat :=
  (length (queue p) - index p) + length (inflight p).

(** The slot that the image of [fname] fills when its request succeeds. *)
Definition decoded_at (B : Browser) (base fname : string) : option Frame :=
  match fetchBitmap B (href B fname base) with
  | inr bmp => Some bmp
  | inl _ => None
  end.

(** ** A concrete session

    The manifest of the scenarios: three frames at 10 frames per second. The
    browser resolves a URL by appending it to its base, and answers every
    request with a blob that decodes. *)
Definition demo_manifest : Manifest :=
  {| basePath := Some "/img/"; frames := ["a.jpg"; "b.jpg"; "c.jpg"];
     fps := Some 10%Q; width := None; height := None; audio := "a.ogg";
     zip := None |}.

Definition demo_zip_manifest : Manifest :=
  {| basePath := Some "/img/"; frames := ["a.jpg"; "b.jpg"; "c.jpg"];
     fps := Some 10%Q; width := None; height := None; audio := "a.ogg";
     zip := Some "frames.zip" |}.

Definition demo_browser : Browser :=
  {| origin := "https://cdn.test";
     href := fun rel base => String.append base rel;
     fetch_blob := fun url => inr url;
     fetch_json := fun _ => inr demo_manifest;
     has_createImageBitmap := true;
     decodes := fun _ => true;
     zip_entries := fun _ => inr [("c.jpg", "C"); ("a.jpg", "A"); ("b.jpg", "B")] |}.

(** The same browser serving an archive that lacks [b.jpg] and whose entry
    [a.jpg] does not decode. *)
Definition corrupt_browser : Browser :=
  {| origin := "https://cdn.test";
     href := fun rel base => String.append base rel;
     fetch_blob := fun url => inr url;
     fetch_json := fun _ => inr demo_zip_manifest;
     has_createImageBitmap := true;
     decodes := fun data => negb (String.eqb data "BAD");
     zip_entries := fun _ => inr [("a.jpg", "BAD"); ("c.jpg", "C")] |}.

(** The same browser, except that the request for [b.jpg] fails. *)
Definition flaky_browser : Browser :=
  {| origin := "https://cdn.test";
     href := fun rel base => String.append base rel;
     fetch_blob := fun url =>
       if String.eqb url "https://cdn.test/img/b.jpg"
       then inl (NetworkError url) else inr url;
     fetch_json := fun _ => inr demo_manifest;
     has_createImageBitmap := true;
     decodes := fun _ => true;
     zip_entries := fun _ => inr [] |}.

Definition demo_props (looping : bool) : Props :=
  {| manifestUrl := "/img/manifest.json"; fpsProp := None;
     canvasWidth := None; loop := looping; onReady := true; onEnd := true;
     onError := true |}.

Definition demo_canvas : Canvas :=
  {| cwidth := 300; cheight := 150; style_width := None; style_height := None;
     style_display := None; shown := None |}.

(** The state in which the setup of the concrete session leaves a freshly
    rendered component: the three frames arrive out of order, the audio is
    ready and starts at time 0. *)
Definition demo_ready (looping : bool) : St :=
  match run (demo_props looping) demo_browser
          [ManifestResponse; FramesSettled [2; 0; 1]; CanPlayThrough;
           PlaySettled (inr tt) 0]
          (mount (initial (Some demo_canvas))) with
  | inr s => s
  | inl _ => initial None
  end.

(** A clip of forty frames at 100 frames per second, its setup done at
    time 0. *)
Definition fast_manifest : Manifest :=
  {| basePath := Some "/img/"; frames := replicate 40 "f.jpg";
     fps := Some 100%Q; width := None; height := None; audio := "a.ogg";
     zip := None |}.

Definition fast_browser : Browser :=
  {| origin := "https://cdn.test";
     href := fun rel base => String.append base rel;
     fetch_blob := fun url => inr url;
     fetch_json := fun _ => inr fast_manifest;
     has_createImageBitmap := true;
     decodes := fun _ => true;
     zip_entries := fun _ => inr [] |}.

Definition fast_ready : St :=
  match run (demo_props false) fast_browser
          [ManifestResponse; FramesSettled (replicate 40 0); CanPlayThrough;
           PlaySettled (inr tt) 0]
          (mount (initial (Some demo_canvas))) with
  | inr s => s
  | inl _ => initial None
  end.

(** ** Vocabulary of the statements *)

(** The frame rate in the words of the specification: the prop override,
    else the manifest value, else 25. *)
Definition spec_fps (prop manifest_fps : option Q) : Q :=
  match prop with
  | Some f => f
  | None => match manifest_fps with Some f => f | None => 25 end
  end.

Fixpoint distinct_neighbours {A} (l : list A) : Prop :=
  match l with
  | x :: rest =>
      match rest with
      | y :: _ => x ≠ y ∧ distinct_neighbours rest
      | [] => True
      end
  | [] => True
  end.

(** The frames of a store that have a [close] method, slot by slot. *)
Definition releasable (fs : list (option Frame)) : list Frame :=
  omap (fun slot => match slot with
                    | Some f => if has_close f then Some f else None
                    | None => None
                    end) fs.


(** The frame store holds one decoded image for every name of the manifest. *)
Definition full_store (s : St) : Prop :=
  ∃ m, manifestRef s = Some m ∧
       length (framesRef s) = length (frames m) ∧
       Forall is_Some (framesRef s).

(** The playback was started: a tick was scheduled or a frame was drawn. *)
Definition started (s : St) : Prop :=
  count_event is_RequestFrame (trace s) ≠ 0 ∨ drawn (trace s) ≠ [].

(** A session whose manifest declares no frame at all. *)
Definition empty_manifest : Manifest :=
  {| basePath := Some "/img/"; frames := []; fps := Some 10%Q; width := None;
     height := None; audio := "a.ogg"; zip := None |}.

Definition empty_browser : Browser :=
  {| origin := "https://cdn.test";
     href := fun rel base => String.append base rel;
     fetch_blob := fun url => inr url;
     fetch_json := fun _ => inr empty_manifest;
     has_createImageBitmap := true;
     decodes := fun _ => true;
     zip_entries := fun _ => inr [] |}.

Definition empty_ready : St :=
  match run (demo_props false) empty_browser
          [ManifestResponse; FramesSettled []; CanPlayThrough;
           PlaySettled (inr tt) 0]
          (mount (initial (Some demo_canvas))) with
  | inr s => s
  | inl _ => initial None
  end.

(** ** States of a session that is not torn down *)

(** Nothing was loaded and nothing was played. *)
Definition quiet (s : St) : Prop :=
  framesRef s = [] ∧ rafQueue s = [] ∧
  count_event is_RequestFrame (trace s) = 0 ∧ drawn (trace s) = [].

(** The store holds what a successful [loadFrames] of the session's manifest
    returned. *)
Definition loaded (P : Props) (B : Browser) (s : St) : Prop :=
  ∃ m arrivals rs,
    fetch_json B (manifestUrl P) = inr m ∧
    manifestRef s = Some m ∧
    loadFrames B (manifestUrl P) m arrivals = Some (inr rs) ∧
    framesRef s = rs.

Definition session_inv (P : Props) (B : Browser) (s : St) : Prop :=
  (quiet s ∧ pc s ≠ AwaitCanPlayThrough ∧ pc s ≠ AwaitPlay ∧
   ∀ m, pc s = AwaitFrames m →
        fetch_json B (manifestUrl P) = inr m ∧ manifestRef s = Some m) ∨
  (loaded P B s ∧ pc s ≠ AwaitManifest ∧ ∀ m, pc s ≠ AwaitFrames m).


(** The session in which the request for [b.jpg] fails, after the load has
    settled and a display refresh has passed. *)
Definition flaky_session : St :=
  match run (demo_props false) flaky_browser
          [ManifestResponse; FramesSettled [0; 1; 2]; Refresh 100]
          (mount (initial (Some demo_canvas))) with
  | inr s => s
  | inl _ => initial None
  end.


(** ** The start button

    [handleStart], cut at its [await]. The button is displayed while
    [started] is false, that is while no canvas element is attached to
    [canvasRef]; [setStarted(true)] makes the component render the canvas
    instead, a new element of the default size, 300 by 150 pixels, with no
    inline style. *)

Definition fresh_canvas : Canvas :=
  {| cwidth := 300; cheight := 150; style_width := None; style_height := None;
     style_display := None; shown := None |}.

(** [await audioRef.current?.play()], up to the [await]. *)
Definition handleStart_click (s : St) : St :=
  match audioRef s with
  | Some a =>
      emit AudioPlay
        (set_audioRef
           (Some {| src := src a; ended := ended a; paused := false;
                    currentTime := currentTime a |}) s)
  | None => s
  end.

(** The rest of [handleStart], the awaited promise settled with [r] at time
    [now]. *)
Definition handleStart_resume (r : Result unit) (now : Q) (s : St) : St :=
  match r with
  | inl err => emit (ConsoleError err) s
  | inr _ =>
      let s := set_startTimeRef now s in
      let (h, s) := requestAnimationFrame s in
      let s := set_rafRef (Some h) s in
      match canvasRef s with
      | None => set_canvasRef (Some fresh_canvas) s
      | Some _ => s
      end
  end.

(** ** The manifest generator ([buildAvatarAssets.ts])

    A file name is a string of code units below 256, which [String.compare]
    orders as [Array.prototype.sort] does without a comparator. *)

(** [f.endsWith(suffix)] *)
Definition ends_with (suffix f : string) : bool :=
  (String.length suffix <=? String.length f) &&
  String.eqb
    (String.substring (String.length f - String.length suffix) (String.length suffix) f)
    suffix.

Definition str_le (a b : string) : Prop := String.leb a b = true.

#[global] Instance str_le_dec (a b : string) : Decision (str_le a b) :=
  bool_eq_dec (String.leb a b) true.

(** [.sort()] *)
Definition js_sort (l : list string) : list string := merge_sort str_le l.

(** The manifest that the script writes, from what [readdirSync(dir)]
    lists. *)
Definition buildAvatarAssets (listing : list string) : Manifest :=
  let files := js_sort (List.filter (ends_with ".jpg") listing) in
  {| basePath := Some "/assets/demo_avatar/img/";
     frames := files;
     fps := Some 25%Q;
     width := Some 640%Q;
     height := Some 360%Q;
     audio := "audio.ogg";
     zip := None |}.

(** ** More vocabulary *)

(** What the [catch] of [setup] reports, and to whom. *)
Definition report (P : Props) (s : St) (err : exn) : list Event :=
  if isMounted s
  then [if onError P then OnError err else ConsoleError err]
  else [].

Definition is_error_report (e : Event) : bool :=
  match e with OnError _ | ConsoleError _ => true | _ => false end.

(** The outcome of a setup as the host sees it: ready, or an error. *)
Definition is_outcome (e : Event) : bool :=
  match e with OnReady | OnError _ | ConsoleError _ => true | _ => false end.

(** The events a tick can emit. *)
Definition is_tick_event (e : Event) : bool :=
  match e with
  | DrawFrame _ | RequestFrame _ | CancelFrame _ | AudioPlay | OnEnd => true
  | _ => false
  end.

(** The index a tick that goes on settles on. *)
Definition settled_index (P : Props) (m : Manifest) (now : Q) (s : St) : Z :=
  let idx := frame_index P m now s in
  let n := Z.of_nat (length (framesRef s)) in
  if (n <=? idx)%Z then (idx mod n)%Z else idx.

(** What one step of a session adds to the trace, [evs], as far as the
    reports to the host are concerned. *)
Definition step_report (s s' : St) (evs : list Event) : Prop :=
  trace s' = trace s ++ evs ∧
  count_event is_outcome evs ≤ 1 ∧
  (count_event is_outcome evs ≠ 0 → pc s ≠ Returned ∧ pc s' = Returned) ∧
  (pc s = Returned → pc s' = Returned) ∧
  (count_event is_error_report evs ≠ 0 → isMounted s = true) ∧
  (isMounted s = false → isMounted s' = false) ∧
  (OnReady ∈ evs →
   pc s = AwaitPlay ∧
   evs = [DrawFrame (Some 0%Z); RequestFrame (nextHandle s); SetReady; OnReady]) ∧
  (pc s' = AwaitPlay → pc s = AwaitPlay ∨ AudioPlay ∈ evs).

(** The session with the failing request, while the frames are loading. *)
Definition flaky_loading : St :=
  match run (demo_props false) flaky_browser [ManifestResponse]
          (mount (initial None)) with
  | inr s => s
  | inl _ => initial None
  end.

(** The size of the canvas element, if there is one: in pixels, and as its
    inline style has it. *)
Definition canvas_size (s : St) : option (Z * Z * option Q * option Q) :=
  match canvasRef s with
  | Some c => Some (cwidth c, cheight c, style_width c, style_height c)
  | None => None
  end.

(** That session unmounted while the frames are loading, and what it is
    once the load has failed. *)
Definition flaky_unmounted : St :=
  match cleanup flaky_loading with
  | inr s => s
  | inl _ => initial None
  end.

Definition flaky_late : St :=
  match run (demo_props false) flaky_browser [FramesSettled [0; 1; 2]]
          flaky_unmounted with
  | inr s => s
  | inl _ => initial None
  end.

(** A click on the start button whose [play()] promise is fulfilled at
    [now]. *)
Definition handleStart (now : Q) (s : St) : St :=
  handleStart_resume (inr tt) now (handleStart_click s).

(** The concrete session as the component really starts it, with no canvas
    yet; the same when the start button is then clicked, at 0.12 s; and
    once it is unmounted after that. *)
Definition demo_hidden : St :=
  match run (demo_props false) demo_browser
          [ManifestResponse; FramesSettled [2; 0; 1]; CanPlayThrough;
           PlaySettled (inr tt) 0]
          (mount (initial None)) with
  | inr s => s
  | inl _ => initial None
  end.

Definition demo_clicked : St := handleStart 120 demo_hidden.

(** The same props with a canvas width of 100, for which the 16:9 height is
    56.25. *)
Definition narrow_props : Props :=
  {| manifestUrl := "/img/manifest.json"; fpsProp := None;
     canvasWidth := Some 100%Q; loop := false; onReady := true; onEnd := true;
     onError := true |}.

Definition demo_clicked_unmounted : St :=
  match cleanup demo_clicked with
  | inr s => s
  | inl _ => initial None
  end.
(** * Numbers

    Rounding to the nearest double is monotone, which is all that the
    playback clock needs of it. *)

Section Numbers.

Local Open Scope Z_scope.

Lemma pow2_pos e : (0 < pow2 e)%Q.
Proof. apply Qpower_0_lt. reflexivity. Qed.

Lemma pow2_add a b : (pow2 (a + b) == pow2 a * pow2 b)%Q.
Proof. apply Qpower_plus. discriminate. Qed.

Lemma pow2_le a b : a <= b -> (pow2 a <= pow2 b)%Q.
Proof. intros H. apply Qpower_le_compat_l; [exact H|discriminate]. Qed.

Lemma pow2_Z k : 0 <= k -> (inject_Z (2 ^ k) == pow2 k)%Q.
Proof. intros H. apply (Zpower_Qpower 2 k H). Qed.

Lemma ilog2_spec a :
  (0 < a)%Q -> (pow2 (ilog2 a) <= a)%Q /\ (a < pow2 (ilog2 a + 1))%Q.
Proof.
  intros Ha. unfold ilog2. destruct a as [n d]. cbn [Qnum Qden].
  set (k := Z.log2 n - Z.log2 (Z.pos d)).
  assert (Hn : 0 < n).
  { unfold Qlt in Ha. simpl in Ha. lia. }
  destruct (Z.log2_spec n Hn) as [Hn1 Hn2].
  destruct (Z.log2_spec (Z.pos d) eq_refl) as [Hd1 Hd2].
  pose proof (Z.log2_nonneg n) as Hln.
  pose proof (Z.log2_nonneg (Z.pos d)) as Hld.
  set (ln := Z.log2 n) in *. set (ld := Z.log2 (Z.pos d)) in *.
  assert (Hq : (n # d == inject_Z n / inject_Z (Z.pos d))%Q) by apply Qmake_Qdiv.
  assert (Hdpos : (0 < inject_Z (Z.pos d))%Q) by reflexivity.
  assert (Hnq1 : (pow2 ln <= inject_Z n)%Q).
  { rewrite <- pow2_Z by exact Hln. rewrite <- Zle_Qle. exact Hn1. }
  assert (Hnq2 : (inject_Z n < pow2 (ln + 1))%Q).
  { rewrite <- pow2_Z by lia. rewrite <- Zlt_Qlt. replace (ln + 1) with (Z.succ ln) by lia. exact Hn2. }
  assert (Hdq1 : (pow2 ld <= inject_Z (Z.pos d))%Q).
  { rewrite <- pow2_Z by exact Hld. rewrite <- Zle_Qle. exact Hd1. }
  assert (Hdq2 : (inject_Z (Z.pos d) < pow2 (ld + 1))%Q).
  { rewrite <- pow2_Z by lia. rewrite <- Zlt_Qlt. replace (ld + 1) with (Z.succ ld) by lia. exact Hd2. }
  assert (Hup : (n # d < pow2 (k + 1))%Q).
  { rewrite Hq. apply Qlt_shift_div_r; [exact Hdpos|].
    eapply Qlt_le_trans; [exact Hnq2|].
    replace (ln + 1) with ((k + 1) + ld) by (unfold k, ln, ld; lia).
    rewrite pow2_add. apply Qmult_le_l; [apply pow2_pos|exact Hdq1]. }
  assert (Hlow : (pow2 (k - 1) < n # d)%Q).
  { rewrite Hq. apply Qlt_shift_div_l; [exact Hdpos|].
    eapply Qlt_le_trans; [|exact Hnq1].
    replace ln with ((k - 1) + (ld + 1)) by (unfold k, ln, ld; lia).
    rewrite pow2_add. apply Qmult_lt_l; [apply pow2_pos|exact Hdq2]. }
  destruct (Qle_bool (pow2 k) (n # d)) eqn:E.
  - apply Qle_bool_iff in E. split; [exact E|exact Hup].
  - split; [apply Qlt_le_weak; exact Hlow|].
    replace (k - 1 + 1) with k by lia.
    apply Qnot_le_lt. intros H. apply Qle_bool_iff in H. congruence.
Qed.

Lemma ilog2_mono a b : (0 < a)%Q -> (a <= b)%Q -> ilog2 a <= ilog2 b.
Proof.
  intros Ha Hab.
  assert (Hb : (0 < b)%Q) by (eapply Qlt_le_trans; eassumption).
  destruct (ilog2_spec a Ha) as [Ha1 _].
  destruct (ilog2_spec b Hb) as [_ Hb2].
  destruct (Z_le_gt_dec (ilog2 a) (ilog2 b)) as [H|H]; [exact H|].
  exfalso.
  assert (Hp : (pow2 (ilog2 b + 1) <= pow2 (ilog2 a))%Q) by (apply pow2_le; lia).
  lra.
Qed.

Lemma rne_Z z : rne (inject_Z z) = z.
Proof.
  unfold rne. rewrite Qfloor_Z.
  destruct (Qcompare_spec (inject_Z z - inject_Z z) (1 # 2)) as [H|H|H];
    [exfalso; lra|reflexivity|exfalso; lra].
Qed.

Lemma rne_mono x y : (x <= y)%Q -> rne x <= rne y.
Proof.
  intros Hxy. unfold rne.
  pose proof (Qfloor_resp_le x y Hxy) as Hf.
  pose proof (Qfloor_le x) as Hx1. pose proof (Qlt_floor x) as Hx2.
  pose proof (Qfloor_le y) as Hy1. pose proof (Qlt_floor y) as Hy2.
  set (fx := Qfloor x) in *. set (fy := Qfloor y) in *.
  rewrite inject_Z_plus in Hx2, Hy2.
  destruct (Z.eq_dec fx fy) as [E|E].
  - rewrite <- E in *.
    destruct (Qcompare_spec (x - inject_Z fx) (1 # 2)) as [Hx|Hx|Hx];
    destruct (Qcompare_spec (y - inject_Z fx) (1 # 2)) as [Hy|Hy|Hy];
      try destruct (Z.even fx); try lia; exfalso; lra.
  - assert (Hlt : fx + 1 <= fy) by lia.
    destruct (Qcompare_spec (x - inject_Z fx) (1 # 2)) as [Hx|Hx|Hx];
    destruct (Qcompare_spec (y - inject_Z fy) (1 # 2)) as [Hy|Hy|Hy];
      try destruct (Z.even fx); try destruct (Z.even fy); lia.
Qed.

Lemma round_pos_mono a b : (0 < a)%Q -> (a <= b)%Q -> (round_pos a <= round_pos b)%Q.
Proof.
  intros Ha Hab.
  assert (Hb : (0 < b)%Q) by (eapply Qlt_le_trans; eassumption).
  pose proof (ilog2_mono a b Ha Hab) as Hlog.
  destruct (ilog2_spec a Ha) as [_ Ha2].
  destruct (ilog2_spec b Hb) as [Hb1 _].
  unfold round_pos.
  set (ea := Z.max (ilog2 a - 52) (-1074)).
  set (eb := Z.max (ilog2 b - 52) (-1074)).
  assert (He : ea <= eb) by (unfold ea, eb; lia).
  pose proof (pow2_pos ea) as Hpa. pose proof (pow2_pos eb) as Hpb.
  destruct (Z.eq_dec ea eb) as [E|E].
  - rewrite <- E. apply Qmult_le_compat_r; [|apply Qlt_le_weak, Hpa].
    rewrite <- Zle_Qle. apply rne_mono.
    apply Qmult_le_compat_r; [exact Hab|].
    apply Qlt_le_weak, Qinv_lt_0_compat, Hpa.
  - assert (Heb : eb = ilog2 b - 52) by (unfold ea, eb in *; lia).
    apply Qle_trans with (pow2 (53 + ea)).
    + rewrite pow2_add. apply Qmult_le_compat_r; [|apply Qlt_le_weak, Hpa].
      rewrite <- (pow2_Z 53) by lia. rewrite <- Zle_Qle.
      rewrite <- (rne_Z (2 ^ 53)). apply rne_mono.
      rewrite (pow2_Z 53) by lia.
      apply Qle_shift_div_r; [exact Hpa|].
      rewrite <- pow2_add. apply Qlt_le_weak.
      eapply Qlt_le_trans; [exact Ha2|]. apply pow2_le. unfold ea. lia.
    + apply Qle_trans with (pow2 (52 + eb)); [apply pow2_le; lia|].
      rewrite pow2_add. apply Qmult_le_compat_r; [|apply Qlt_le_weak, Hpb].
      rewrite <- (pow2_Z 52) by lia. rewrite <- Zle_Qle.
      rewrite <- (rne_Z (2 ^ 52)) at 1. apply rne_mono.
      rewrite (pow2_Z 52) by lia.
      apply Qle_shift_div_l; [exact Hpb|].
      rewrite <- pow2_add. replace (52 + eb) with (ilog2 b) by lia. exact Hb1.
Qed.

Lemma round_pos_nonneg a : (0 < a)%Q -> (0 <= round_pos a)%Q.
Proof.
  intros Ha. unfold round_pos.
  set (e := Z.max (ilog2 a - 52) (-1074)).
  pose proof (pow2_pos e) as Hp.
  apply Qmult_le_0_compat; [|apply Qlt_le_weak, Hp].
  change 0%Q with (inject_Z 0). rewrite <- Zle_Qle.
  rewrite <- (rne_Z 0) at 1. apply rne_mono.
  apply Qle_shift_div_l; [exact Hp|].
  change (inject_Z 0) with 0%Q. rewrite Qmult_0_l. apply Qlt_le_weak, Ha.
Qed.

Lemma round64_mono x y : (x <= y)%Q -> (round64 x <= round64 y)%Q.
Proof.
  intros Hxy. unfold round64.
  destruct (Qcompare_spec x 0) as [Hx|Hx|Hx];
  destruct (Qcompare_spec y 0) as [Hy|Hy|Hy]; try (exfalso; lra).
  - lra.
  - apply round_pos_nonneg, Hy.
  - pose proof (round_pos_nonneg (- x) ltac:(lra)). lra.
  - pose proof (round_pos_mono (- y) (- x) ltac:(lra) ltac:(lra)). lra.
  - pose proof (round_pos_nonneg (- x) ltac:(lra)).
    pose proof (round_pos_nonneg y Hy). lra.
  - apply round_pos_mono; assumption.
Qed.

#[global] Instance round64_proper : Proper (Qeq ==> Qeq) round64.
Proof.
  intros x y H. apply Qle_antisym; apply round64_mono; rewrite H; apply Qle_refl.
Qed.

Lemma round64_nonneg x : (0 <= x)%Q -> (0 <= round64 x)%Q.
Proof. intros H. apply (round64_mono 0 x H). Qed.

Lemma js_sub_mono a b c : (a <= b)%Q -> (js_sub a c <= js_sub b c)%Q.
Proof. intros H. apply round64_mono. lra. Qed.

Lemma js_div_mono a b c : (0 < c)%Q -> (a <= b)%Q -> (js_div a c <= js_div b c)%Q.
Proof.
  intros Hc H. apply round64_mono. apply Qmult_le_compat_r; [exact H|].
  apply Qlt_le_weak, Qinv_lt_0_compat, Hc.
Qed.

Lemma js_mul_mono a b c : (0 <= c)%Q -> (a <= b)%Q -> (js_mul a c <= js_mul b c)%Q.
Proof. intros Hc H. apply round64_mono. by apply Qmult_le_compat_r. Qed.

End Numbers.

(** [round64] gives what the reference operations of the standard library
    give, on the sample operands. *)
Lemma round64_reference :
  forallb (f64_agree (SpecFloat.SFmul 53 1024) Qmult) f64_samples = true ∧
  forallb (f64_agree (SpecFloat.SFdiv 53 1024) Qdiv) f64_samples = true ∧
  forallb (f64_agree (SpecFloat.SFsub 53 1024) Qminus) f64_samples = true ∧
  forallb (f64_agree (SpecFloat.SFadd 53 1024) Qplus) f64_samples = true.
Proof. split_and!; vm_compute; reflexivity. Qed.

(** * Archive mode *)

Section Archive.

Context (B : Browser).

Lemma loadAsync_list_to_map (entries : list (string * Blob)) :
  loadAsync entries = list_to_map (reverse entries).
Proof.
  unfold loadAsync.
  induction entries as [|[k v] l IH] using rev_ind; [done|].
  rewrite foldl_snoc, reverse_snoc, list_to_map_cons, IH. done.
Qed.

Lemma loadAsync_lookup_elem (entries : list (string * Blob)) name data :
  loadAsync entries !! name = Some data → (name, data) ∈ entries.
Proof.
  rewrite loadAsync_list_to_map. intros H.
  apply elem_of_reverse. by apply elem_of_list_to_map_2.
Qed.

Lemma loadAsync_lookup_None (entries : list (string * Blob)) name :
  loadAsync entries !! name = None ↔ name ∉ entries.*1.
Proof.
  rewrite loadAsync_list_to_map, <- not_elem_of_list_to_map.
  rewrite fmap_reverse, elem_of_reverse. done.
Qed.

Lemma loadAsync_perm (e1 e2 : list (string * Blob)) :
  NoDup e1.*1 → e1 ≡ₚ e2 → loadAsync e1 = loadAsync e2.
Proof.
  intros Hnd Hp. rewrite !loadAsync_list_to_map.
  apply list_to_map_proper.
  - by rewrite fmap_reverse, reverse_Permutation.
  - by rewrite !reverse_Permutation.
Qed.

Lemma zip_loop_inr z names acc fs :
  zip_loop B z names acc = inr fs →
  ∃ fs', fs = acc ++ fs' ∧
    Forall2 (fun name slot => ∃ data bmp, z !! name = Some data ∧
               createBitmap B data = inr bmp ∧ slot = Some bmp) names fs'.
Proof.
  revert acc. induction names as [|n names IH]; intros acc H; simpl in H.
  - exists []. split; [by simplify_eq; rewrite app_nil_r | constructor].
  - destruct (z !! n) as [d|] eqn:Hz; [|done].
    destruct (createBitmap B d) as [e|bmp] eqn:Hc; simpl in H; [done|].
    destruct (IH _ H) as (fs' & -> & HF).
    exists (Some bmp :: fs'). split; [by rewrite <- app_assoc|].
    constructor; eauto.
Qed.

Lemma zip_loop_inl z names acc e :
  zip_loop B z names acc = inl e →
  (∃ n, n ∈ names ∧ z !! n = None ∧ e = Error (missing_msg n)) ∨
  (∃ n data, n ∈ names ∧ z !! n = Some data ∧ createBitmap B data = inl e).
Proof.
  revert acc. induction names as [|n names IH]; intros acc H; simpl in H; [done|].
  destruct (z !! n) as [d|] eqn:Hz.
  - destruct (createBitmap B d) as [e'|bmp] eqn:Hc; simpl in H.
    + simplify_eq. right. exists n, d. split; [left|done].
    + destruct (IH _ H) as [(m & ? & ? & ?)|(m & d' & ? & ? & ?)];
        [left; exists m|right; exists m, d']; split_and!; try done; by right.
  - simplify_eq. left. exists n. split_and!; try done. left.
Qed.

Lemma zip_loop_missing z names acc n :
  n ∈ names → z !! n = None → ∃ e, zip_loop B z names acc = inl e.
Proof.
  revert acc. induction names as [|n' names IH]; intros acc Hin Hz.
  - by apply elem_of_nil in Hin.
  - simpl. destruct (z !! n') as [d|] eqn:Hz'; [|eauto].
    destruct (createBitmap B d) as [e'|bmp]; simpl; [eauto|].
    apply elem_of_cons in Hin as [->|Hin]; [congruence|]. by apply IH.
Qed.

Lemma zip_loop_prefix z pre rest acc :
  Forall (fun name => ∃ data bmp, z !! name = Some data ∧
                                  createBitmap B data = inr bmp) pre →
  ∃ acc', zip_loop B z (pre ++ rest) acc = zip_loop B z rest acc'.
Proof.
  intros Hpre. revert acc.
  induction Hpre as [|name pre (data & bmp & Hz & Hc) _ IH]; intros acc; simpl.
  - by exists acc.
  - rewrite Hz, Hc. simpl. apply IH.
Qed.

End Archive.

(** * Individual mode: the worker pool *)

Section WorkerPool.

Context (B : Browser).

Lemma pool_inv_init q : pool_inv B q 0 (pool_start q).
Proof.
  split; simpl; try done; try lia.
  - by rewrite length_replicate.
  - intros i url Hin. by apply elem_of_nil in Hin.
  - constructor.
Qed.

Lemma worker_inv q w p : pool_inv B q w p → pool_inv B q (S w) (worker p).
Proof.
  intros [Hq Hr Hi Hf Hin Hnd Hd Hw Hweq Hful Hnw Hrej].
  unfold worker. rewrite Hq.
  destruct (index p <? length q) eqn:Hlt.
  - apply Nat.ltb_lt in Hlt.
    assert (Hlk : q !! index p = Some (q !!! index p)).
    { apply list_lookup_lookup_total_lt. lia. }
    assert (Hfresh : index p ∉ (inflight p).*1).
    { intros Hx. apply list_elem_of_fmap in Hx as ([i u] & Heq & Hx).
      apply Hin in Hx. simpl in Heq. lia. }
    split; simpl; try done; try lia.
    all: try (rewrite Hf; by erewrite take_S_r).
    + intros i url Hx. apply elem_of_app in Hx as [Hx|Hx].
      * apply Hin in Hx. split; [lia|tauto].
      * apply list_elem_of_singleton in Hx. simplify_eq. split; [lia|done].
    + rewrite fmap_app. apply NoDup_app. split_and!; [done| |apply NoDup_singleton].
      intros x Hx Hx'. apply list_elem_of_singleton in Hx'. simpl in Hx'. by subst.
    + intros i Hlt' Hni. rewrite fmap_app in Hni.
      apply not_elem_of_app in Hni as [Hni Hni'].
      apply Hd; [|done].
      assert (i ≠ index p); [|lia].
      intros ->. apply Hni'. simpl. left.
    + rewrite length_app. simpl. lia.
    + intros Hn. rewrite length_app. simpl. specialize (Hweq Hn). lia.
  - apply Nat.ltb_ge in Hlt.
    split; simpl; try done; try lia.
    intros Hn. specialize (Hweq Hn). lia.
Qed.

Lemma worker_pending q w p :
  pool_inv B q w p → pending_work (worker p) = pending_work p.
Proof.
  intros [Hq Hr Hi Hf Hin Hnd Hd Hw Hweq Hful Hnw Hrej].
  unfold worker, pending_work.
  destruct (index p <? length (queue p)) eqn:Hlt; simpl; [|done].
  apply Nat.ltb_lt in Hlt. rewrite length_app. simpl. lia.
Qed.

Lemma worker_rejection p : rejection (worker p) = rejection p.
Proof. unfold worker. by destruct (_ <? _). Qed.

Lemma iter_worker_inv q n p :
  pool_inv B q 0 p → pool_inv B q n (Nat.iter n worker p).
Proof. intros H. induction n; simpl; [done|]. by apply worker_inv. Qed.

Lemma spawn_inv q :
  pool_inv B q (Nat.min MAX_CONCURRENT_REQUESTS (length q)) (spawn q).
Proof. apply iter_worker_inv, pool_inv_init. Qed.

Lemma spawn_pending q : pending_work (spawn q) = length q.
Proof.
  unfold spawn.
  generalize (Nat.min MAX_CONCURRENT_REQUESTS (length q)) at 1 as n.
  induction n; simpl.
  - unfold pending_work. simpl. lia.
  - erewrite worker_pending; [done|]. apply iter_worker_inv, pool_inv_init.
Qed.

Lemma split_inflight (l : list (nat * string)) j i url :
  l !! j = Some (i, url) →
  ∃ l1 l2, l = l1 ++ (i, url) :: l2 ∧ delete j l = l1 ++ l2.
Proof.
  intros H. exists (take j l), (drop (S j) l). split.
  - by rewrite take_drop_middle.
  - by rewrite delete_take_drop.
Qed.

Lemma complete_inv q w p k :
  pool_inv B q w p → pool_inv B q w (complete B p k).
Proof.
  intros Hinv. unfold complete.
  destruct (inflight p !! (k mod length (inflight p))) as [[i url]|] eqn:Hj;
    [|done].
  destruct (split_inflight _ _ _ _ Hj) as (l1 & l2 & Hl & Hdel).
  destruct Hinv as [Hq Hr Hi Hf Hin Hnd Hd Hw Hweq Hful Hnw Hrej].
  rewrite Hl in Hin, Hnd, Hw, Hweq, Hd.
  rewrite fmap_app, fmap_cons in Hnd. simpl in Hnd.
  apply NoDup_app in Hnd as (Hnd1 & Hnd12 & Hnd2).
  apply NoDup_cons in Hnd2 as [Hi2 Hnd2].
  assert (Hi1 : i ∉ l1.*1).
  { intros Hx. apply (Hnd12 _ Hx). left. }
  destruct (Hin i url) as [Hilt Hiq].
  { apply elem_of_app. right. left. }
  assert (Hurl : q !!! i = url) by by apply list_lookup_total_correct.
  rewrite length_app in Hw, Hweq. simpl in Hw, Hweq.
  assert (Hin' : ∀ i' u, (i', u) ∈ l1 ++ l2 → i' < index p ∧ q !! i' = Some u).
  { intros i' u Hx. apply Hin. apply elem_of_app in Hx as [Hx|Hx];
      apply elem_of_app; [by left|right; by right]. }
  assert (Hnd' : NoDup (l1 ++ l2).*1).
  { rewrite fmap_app. apply NoDup_app. split_and!; [done| |done].
    intros x Hx Hx'. apply (Hnd12 _ Hx). by right. }
  assert (Hout : ∀ i', i' ∉ (l1 ++ l2).*1 → i' ≠ i →
                       i' ∉ (l1 ++ (i, url) :: l2).*1).
  { intros i' Hx Hne. rewrite fmap_app in *. rewrite fmap_cons. simpl.
    rewrite !not_elem_of_app in *. rewrite not_elem_of_cons. tauto. }
  unfold resume, drop_inflight. simpl.
  destruct (fetchBitmap B url) as [e|bmp] eqn:Hfetch.
  - (* the request failed: the worker's promise rejects *)
    unfold reject. rewrite Hdel.
    split; simpl; try done.
    + intros i' Hlt' Hni. destruct (decide (i' = i)) as [->|Hne].
      * rewrite Hurl, Hfetch. by destruct (rejection p).
      * specialize (Hd i' Hlt' (Hout _ Hni Hne)).
        destruct (fetchBitmap B (q !!! i')); [by destruct (rejection p)|done].
    + rewrite length_app in *. lia.
    + by destruct (rejection p).
    + intros e' He'. destruct (rejection p) as [e0|] eqn:Hrj.
      * apply Hrej. congruence.
      * exists url. split; [by eapply list_elem_of_lookup_2|congruence].
  - (* the image arrived: it is stored and the worker loops *)
    destruct w as [|w']; [lia|].
    apply worker_inv. unfold set_result. rewrite Hdel.
    split; simpl; try done.
    + by rewrite length_insert.
    + intros i' Hlt' Hni. destruct (decide (i' = i)) as [->|Hne].
      * rewrite Hurl, Hfetch. apply list_lookup_insert_eq. lia.
      * specialize (Hd i' Hlt' (Hout _ Hni Hne)).
        destruct (fetchBitmap B (q !!! i')); [done|].
        by rewrite list_lookup_insert_ne.
    + rewrite length_app in *. lia.
    + intros Hn. specialize (Hweq Hn). rewrite length_app in *. lia.
Qed.

Lemma complete_idle p k : inflight p = [] → complete B p k = p.
Proof. intros H. unfold complete. by rewrite H. Qed.

Lemma complete_pending q w p k :
  pool_inv B q w p → inflight p ≠ [] →
  S (pending_work (complete B p k)) = pending_work p.
Proof.
  intros Hinv Hne. unfold complete.
  assert (Hlen : 0 < length (inflight p)).
  { destruct (inflight p); [done|simpl; lia]. }
  destruct (lookup_lt_is_Some_2 (inflight p) (k mod length (inflight p)))
    as [[i url] Hj]; [apply Nat.mod_upper_bound; lia|].
  rewrite Hj.
  destruct (split_inflight _ _ _ _ Hj) as (l1 & l2 & Hl & Hdel).
  pose proof (inv_index _ _ _ _ Hinv) as Hi.
  pose proof (inv_queue _ _ _ _ Hinv) as Hq.
  unfold resume, drop_inflight. rewrite Hdel.
  destruct (fetchBitmap B url) as [e|bmp].
  - unfold reject, pending_work. simpl. rewrite Hl, !length_app. simpl. lia.
  - unfold worker, set_result, pending_work. simpl.
    destruct (index p <? length (queue p)) eqn:Hlt; simpl;
      rewrite Hl, !length_app; simpl; [|lia].
    apply Nat.ltb_lt in Hlt. lia.
Qed.

Lemma run_pool_inv q w arrivals p :
  pool_inv B q w p → pool_inv B q w (run_pool B arrivals p).
Proof.
  revert p. induction arrivals as [|k ks IH]; intros p H; [done|].
  simpl. apply IH. by apply complete_inv.
Qed.

Lemma run_pool_idle arrivals p :
  inflight p = [] → run_pool B arrivals p = p.
Proof.
  intros H. induction arrivals as [|k ks IH]; [done|].
  simpl. by rewrite complete_idle.
Qed.

(** Every request is answered after as many arrivals as there is work. *)
Lemma run_pool_drains q w arrivals p :
  pool_inv B q w p → pending_work p ≤ length arrivals →
  inflight (run_pool B arrivals p) = [].
Proof.
  revert p. induction arrivals as [|k ks IH]; intros p Hinv Hlen.
  - simpl in *. unfold pending_work in Hlen.
    destruct (inflight p); [done|simpl in Hlen; lia].
  - destruct (inflight p) eqn:Hfl.
    + by rewrite run_pool_idle.
    + simpl. apply IH; [by apply complete_inv|].
      pose proof (complete_pending q w p k Hinv) as Hp.
      rewrite Hfl in Hp. specialize (Hp ltac:(done)). simpl in Hlen. lia.
Qed.

Lemma outcome_inr q p rs :
  pool_inv B q (Nat.min MAX_CONCURRENT_REQUESTS (length q)) p →
  outcome p = Some (inr rs) →
  index p = length q ∧ inflight p = [] ∧
  Forall2 (fun url slot => ∃ bmp, fetchBitmap B url = inr bmp ∧ slot = Some bmp)
    q rs.
Proof.
  intros [Hq Hr Hi Hf Hin Hnd Hd Hw Hweq Hful Hnw Hrej] Hout.
  unfold outcome in Hout.
  destruct (rejection p) eqn:Hrj; [done|].
  destruct (fulfilled p =? nworkers p) eqn:Hfw; [|done].
  apply Nat.eqb_eq in Hfw. injection Hout as <-. subst q.
  assert (Hfl : inflight p = []).
  { apply length_zero_iff_nil. lia. }
  assert (Hix : index p = length (queue p)).
  { destruct (decide (length (queue p) = 0)) as [Hz|Hz]; [lia|].
    apply Hful. unfold MAX_CONCURRENT_REQUESTS in *. lia. }
  split_and!; try done.
  apply Forall2_same_length_lookup_2; [done|].
  intros i url slot Hu Hs.
  assert (Hlt : i < index p).
  { rewrite Hix. by eapply lookup_lt_Some. }
  specialize (Hd i Hlt). rewrite Hfl in Hd. specialize (Hd ltac:(apply not_elem_of_nil)).
  rewrite (list_lookup_total_correct _ _ _ Hu) in Hd.
  destruct (fetchBitmap B url) as [e|bmp]; [done|].
  exists bmp. split; [done|congruence].
Qed.

Lemma Forall2_decoded base (names : list string) rs :
  Forall2 (fun url slot => ∃ bmp, fetchBitmap B url = inr bmp ∧ slot = Some bmp)
    (map (fun fname => href B fname base) names) rs →
  rs = map (decoded_at B base) names.
Proof.
  revert rs. induction names as [|n names IH]; intros rs H; simpl in *.
  - by inversion H.
  - inversion H as [|?? ? rs' (bmp & Hb & ->) Hrest]; subst.
    f_equal; [|by apply IH]. unfold decoded_at. by rewrite Hb.
Qed.


(** With every request succeeding, the load returns the images by index. *)
Lemma pool_succeeds base names arrivals :
  (∀ fname, fname ∈ names → is_Some (decoded_at B base fname)) →
  length names ≤ length arrivals →
  let q := map (fun fname => href B fname base) names in
  outcome (run_pool B arrivals (spawn q)) =
    Some (inr (map (decoded_at B base) names)) ∧
  fetched (run_pool B arrivals (spawn q)) = q.
Proof.
  intros Hall Hlen q.
  pose proof (run_pool_inv _ _ arrivals _ (spawn_inv q)) as Hinv.
  pose proof (run_pool_drains _ _ arrivals _ (spawn_inv q)) as Hdr.
  rewrite spawn_pending in Hdr. unfold q in Hdr at 1.
  rewrite length_map in Hdr. specialize (Hdr Hlen).
  assert (Hrj : rejection (run_pool B arrivals (spawn q)) = None).
  { destruct (rejection _) as [e|] eqn:Hrj; [|done].
    destruct (inv_rejection _ _ _ _ Hinv e Hrj) as (url & Hurl & Hfail).
    apply list_elem_of_fmap in Hurl as (fname & -> & Hfn).
    destruct (Hall _ Hfn) as [bmp Hb]. unfold decoded_at in Hb.
    by rewrite Hfail in Hb. }
  pose proof (inv_workers_eq _ _ _ _ Hinv Hrj) as Heq.
  pose proof (inv_nworkers _ _ _ _ Hinv) as Hnw.
  rewrite Hdr in Heq. cbn [length Nat.add] in Heq.
  assert (Hout : outcome (run_pool B arrivals (spawn q)) =
                 Some (inr (results (run_pool B arrivals (spawn q))))).
  { unfold outcome. by rewrite Hrj, Heq, <- Hnw, Nat.eqb_refl. }
  destruct (outcome_inr _ _ _ Hinv Hout) as (Hix & _ & HF).
  split.
  - rewrite Hout. do 2 f_equal. by apply Forall2_decoded.
  - rewrite (inv_fetched _ _ _ _ Hinv), Hix. apply firstn_all.
Qed.

(** A rejection is final, and the answer to a request that fails rejects at
    once. *)
Lemma complete_rejection_sticky p k e :
  rejection p = Some e → rejection (complete B p k) = Some e.
Proof.
  intros H. unfold complete.
  destruct (inflight p !! _) as [[i url]|]; [|done].
  unfold resume. destruct (fetchBitmap B url); simpl.
  - by rewrite H.
  - by rewrite worker_rejection.
Qed.

Lemma run_pool_rejection_sticky arrivals p e :
  rejection p = Some e → rejection (run_pool B arrivals p) = Some e.
Proof.
  revert p. induction arrivals as [|k ks IH]; intros p H; [done|].
  simpl. by apply IH, complete_rejection_sticky.
Qed.


End WorkerPool.

(** * The claims about loading *)

(** C1. In individual mode, when every request succeeds and is answered,
    [loadFrames] issues one fetch per frame name, in the order of the
    manifest, and returns as many slots as there are names, the slot at
    position [i] holding the image decoded from the URL of [frames[i]]:
    whatever the order [arrivals] in which the requests complete. *)
Theorem loadFrames_individual_by_index B url m arrivals :
  truthy_str (zip m) = false →
  (∀ fname, fname ∈ frames m →
     ∃ bmp, fetchBitmap B (href B fname (base_url B url (basePath m))) = inr bmp) →
  length (frames m) ≤ length arrivals →
  ∃ rs,
    loadFrames B url m arrivals = Some (inr rs) ∧
    length rs = length (frames m) ∧
    (∀ i fname, frames m !! i = Some fname →
       ∃ bmp, fetchBitmap B (href B fname (base_url B url (basePath m))) = inr bmp ∧
              rs !! i = Some (Some bmp)) ∧
    fetched (run_pool B arrivals
               (spawn (map (fun fname => href B fname (base_url B url (basePath m)))
                         (frames m))))
      = map (fun fname => href B fname (base_url B url (basePath m))) (frames m).
Proof.
  intros Hzip Hall Hlen.
  set (base := base_url B url (basePath m)) in *.
  destruct (pool_succeeds B base (frames m) arrivals) as [Hout Hfetched];
    [|done|].
  { intros fname Hin. destruct (Hall _ Hin) as [bmp Hb].
    unfold decoded_at. rewrite Hb. eauto. }
  exists (map (decoded_at B base) (frames m)).
  split_and!.
  - unfold loadFrames. rewrite Hzip. exact Hout.
  - by rewrite length_map.
  - intros i fname Hi.
    destruct (Hall fname) as [bmp Hb]; [by eapply list_elem_of_lookup_2|].
    exists bmp. split; [done|].
    rewrite list_lookup_fmap, Hi. simpl. unfold decoded_at. by rewrite Hb.
  - exact Hfetched.
Qed.

Lemma loadFrames_individual_by_index_witness :
  ∃ rs,
    loadFrames demo_browser "/img/manifest.json" demo_manifest [2; 0; 1]
      = Some (inr rs) ∧
    length rs = 3.
Proof.
  destruct (loadFrames_individual_by_index demo_browser "/img/manifest.json"
              demo_manifest [2; 0; 1]) as (rs & Hrs & Hlen & _).
  - reflexivity.
  - intros fname _. eexists. reflexivity.
  - simpl. lia.
  - exists rs. split; [exact Hrs|exact Hlen].
Defined.

(** C9. The pool starts [min(MAX_CONCURRENT_REQUESTS, N)] workers, with
    [MAX_CONCURRENT_REQUESTS = 8], and at no point, while the workers are
    started or after any sequence of arrivals, are more than [min(8, N)]
    requests outstanding. *)
Theorem pool_outstanding_bound B q arrivals :
  MAX_CONCURRENT_REQUESTS = 8 ∧
  nworkers (run_pool B arrivals (spawn q)) = Nat.min 8 (length q) ∧
  length (inflight (run_pool B arrivals (spawn q))) ≤ Nat.min 8 (length q) ∧
  (∀ k, k ≤ Nat.min 8 (length q) →
     length (inflight (Nat.iter k worker (pool_start q))) ≤ Nat.min 8 (length q)).
Proof.
  pose proof (run_pool_inv B _ _ arrivals _ (spawn_inv B q)) as Hinv.
  split_and!.
  - reflexivity.
  - exact (inv_nworkers _ _ _ _ Hinv).
  - pose proof (inv_workers _ _ _ _ Hinv) as Hw.
    unfold MAX_CONCURRENT_REQUESTS in Hw. lia.
  - intros k Hk.
    pose proof (iter_worker_inv B q k _ (pool_inv_init B q)) as Hk'.
    pose proof (inv_workers _ _ _ _ Hk'). lia.
Qed.

Lemma zip_loop_with_archive B entries z names acc :
  zip_loop (with_archive B entries) z names acc = zip_loop B z names acc.
Proof.
  revert acc. induction names as [|n names IH]; intros acc; simpl; [done|].
  destruct (z !! n) as [d|]; [|done].
  change (createBitmap (with_archive B entries) d) with (createBitmap B d).
  destruct (createBitmap B d); simpl; [done|apply IH].
Qed.

Lemma loadFrames_archive_eq B url m arrivals blob entries :
  truthy_str (zip m) = true →
  fetch_blob B (href B (default EmptyString (zip m)) (base_url B url (basePath m)))
    = inr blob →
  zip_entries B blob = inr entries →
  loadFrames B url m arrivals
    = Some (zip_loop B (loadAsync entries) (frames m) []).
Proof.
  intros Hzip Hblob Hent. unfold loadFrames. rewrite Hzip, Hblob. simpl.
  by rewrite Hent.
Qed.

Lemma loadAsync_lookup_NoDup (entries : list (string * Blob)) name data :
  NoDup entries.*1 → (name, data) ∈ entries → loadAsync entries !! name = Some data.
Proof.
  intros Hnd Hin.
  destruct (loadAsync entries !! name) as [d|] eqn:Hl.
  - apply loadAsync_lookup_elem in Hl.
    pose proof (elem_of_list_to_map_1 (M := gmap string) _ _ _ Hnd Hin) as H1.
    pose proof (elem_of_list_to_map_1 (M := gmap string) _ _ _ Hnd Hl) as H2.
    congruence.
  - apply loadAsync_lookup_None in Hl. exfalso. apply Hl.
    apply list_elem_of_fmap. by exists (name, data).
Qed.

(** C8, as the code has it. With a [zip] entry in the manifest, [loadFrames]
    returns the frames in the order of [Manifest.frames], each decoded from
    the archive entry of that name; the result does not depend on the order
    of the entries in an archive whose entry names are distinct; and the load
    fails whenever a declared name is absent from the archive. The names are
    processed in the order of the manifest and the first failure is the
    error of the load: [Missing <name> inside ZIP] for a name that is
    absent, when the entries declared before it decode, and the decode error
    of an entry that does not decode, when those declared before it do. *)
Theorem loadFrames_archive_order B url m arrivals blob entries :
  truthy_str (zip m) = true →
  fetch_blob B (href B (default EmptyString (zip m)) (base_url B url (basePath m)))
    = inr blob →
  zip_entries B blob = inr entries →
  (∀ rs, loadFrames B url m arrivals = Some (inr rs) →
     Forall2 (fun name slot =>
                ∃ data bmp, (name, data) ∈ entries ∧
                            createBitmap B data = inr bmp ∧ slot = Some bmp)
       (frames m) rs) ∧
  (NoDup entries.*1 →
   (∀ name, name ∈ frames m →
      ∃ data bmp, (name, data) ∈ entries ∧ createBitmap B data = inr bmp) →
   ∃ rs, loadFrames B url m arrivals = Some (inr rs)) ∧
  (∀ entries', NoDup entries.*1 → entries' ≡ₚ entries →
     loadFrames (with_archive B entries') url m arrivals
       = loadFrames B url m arrivals) ∧
  (∀ name, name ∈ frames m → name ∉ entries.*1 →
     ∃ e, loadFrames B url m arrivals = Some (inl e)) ∧
  (NoDup entries.*1 →
   ∀ pre n post, frames m = pre ++ n :: post →
     Forall (fun name => ∃ data bmp, (name, data) ∈ entries ∧
                                     createBitmap B data = inr bmp) pre →
     (n ∉ entries.*1 →
      loadFrames B url m arrivals
        = Some (inl (Error (String.append "Missing "
                              (String.append n " inside ZIP"))))) ∧
     (∀ data e, (n, data) ∈ entries → createBitmap B data = inl e →
        loadFrames B url m arrivals = Some (inl e))).
Proof.
  intros Hzip Hblob Hent.
  pose proof (loadFrames_archive_eq B url m arrivals blob entries
                Hzip Hblob Hent) as Hload.
  split_and!.
  - intros rs Hrs. rewrite Hload in Hrs. injection Hrs as Hrs.
    destruct (zip_loop_inr _ _ _ _ _ Hrs) as (fs' & -> & HF). simpl.
    eapply Forall2_impl; [exact HF|].
    intros name slot (data & bmp & Hd & Hc & Hs).
    exists data, bmp. split_and!; try done. by apply loadAsync_lookup_elem.
  - intros Hnd Hall. rewrite Hload.
    destruct (zip_loop B (loadAsync entries) (frames m) []) as [e|rs] eqn:Hz;
      [|eauto].
    exfalso.
    destruct (zip_loop_inl _ _ _ _ _ Hz)
      as [(n & Hn & Hnone & _)|(n & data & Hn & Hsome & Hfail)].
    + apply loadAsync_lookup_None in Hnone.
      destruct (Hall _ Hn) as (d & _ & Hd & _).
      apply Hnone. apply list_elem_of_fmap. by exists (n, d).
    + destruct (Hall _ Hn) as (d & bmp & Hd & Hc).
      rewrite (loadAsync_lookup_NoDup _ _ _ Hnd Hd) in Hsome. congruence.
  - intros entries' Hnd Hperm. rewrite Hload.
    rewrite (loadFrames_archive_eq (with_archive B entries') url m arrivals
               blob entries' Hzip Hblob eq_refl).
    rewrite zip_loop_with_archive.
    rewrite (loadAsync_perm entries' entries); [done| |done].
    by rewrite Hperm.
  - intros name Hin Habs. rewrite Hload.
    apply loadAsync_lookup_None in Habs.
    destruct (zip_loop_missing B _ _ [] _ Hin Habs) as [e He].
    exists e. by rewrite He.
  - intros Hnd pre n post Hfr Hpre. rewrite Hload, Hfr.
    destruct (zip_loop_prefix B (loadAsync entries) pre (n :: post) []) as [acc ->].
    { eapply Forall_impl; [exact Hpre|].
      intros name (data & bmp & Hd & Hc). exists data, bmp.
      split; [by apply loadAsync_lookup_NoDup|done]. }
    split.
    + intros Habs. apply loadAsync_lookup_None in Habs. simpl. by rewrite Habs.
    + intros data e Hd Hc. simpl.
      by rewrite (loadAsync_lookup_NoDup _ _ _ Hnd Hd), Hc.
Qed.

(** The archive of the concrete session with its entries in another order,
    and the archive that lacks the second frame. *)
Lemma loadFrames_archive_order_witness :
  loadFrames (with_archive demo_browser [("b.jpg", "B"); ("a.jpg", "A"); ("c.jpg", "C")])
    "/img/manifest.json" demo_zip_manifest []
  = loadFrames demo_browser "/img/manifest.json" demo_zip_manifest [] ∧
  loadFrames (with_archive demo_browser [("c.jpg", "C"); ("a.jpg", "A")])
    "/img/manifest.json" demo_zip_manifest []
  = Some (inl (Error "Missing b.jpg inside ZIP")).
Proof.
  split.
  - refine (proj1 (proj2 (proj2
      (loadFrames_archive_order demo_browser "/img/manifest.json"
         demo_zip_manifest [] "https://cdn.test/img/frames.zip"
         [("c.jpg", "C"); ("a.jpg", "A"); ("b.jpg", "B")]
         eq_refl eq_refl eq_refl))) _ _ _).
    + apply (bool_decide_unpack _). vm_compute. exact I.
    + etransitivity; [apply perm_swap|].
      etransitivity; [apply perm_skip, perm_swap|]. apply perm_swap.
  - refine (proj1 (proj2 (proj2 (proj2 (proj2
      (loadFrames_archive_order
         (with_archive demo_browser [("c.jpg", "C"); ("a.jpg", "A")])
         "/img/manifest.json" demo_zip_manifest []
         "https://cdn.test/img/frames.zip" [("c.jpg", "C"); ("a.jpg", "A")]
         eq_refl eq_refl eq_refl)))) _ ["a.jpg"] "b.jpg" ["c.jpg"] eq_refl _) _).
    + apply (bool_decide_unpack _). vm_compute. exact I.
    + constructor; [|constructor].
      exists "A", (ImageBitmap "A"). split; [|reflexivity].
      apply elem_of_cons. right. apply elem_of_cons. by left.
    + apply (bool_decide_unpack _). vm_compute. exact I.
Defined.

(** C8 as stated fails: the archive lacks [b.jpg], and the load fails with
    the decode error of [a.jpg], which is declared before it, an error that
    does not name the missing entry. And of two archives that hold the same
    entries, two of them with the name [a.jpg], the order decides which of
    the two is decoded. *)
Lemma loadFrames_archive_order_counterexample :
  frames demo_zip_manifest = ["a.jpg"; "b.jpg"; "c.jpg"] ∧
  zip_entries corrupt_browser "https://cdn.test/img/frames.zip"
    = inr [("a.jpg", "BAD"); ("c.jpg", "C")] ∧
  loadFrames corrupt_browser "/img/manifest.json" demo_zip_manifest []
    = Some (inl (DecodeError "BAD")) ∧
  loadFrames
    (with_archive demo_browser
       [("a.jpg", "A1"); ("a.jpg", "A2"); ("b.jpg", "B"); ("c.jpg", "C")])
    "/img/manifest.json" demo_zip_manifest []
    = Some (inr [Some (ImageBitmap "A2"); Some (ImageBitmap "B");
                 Some (ImageBitmap "C")]) ∧
  loadFrames
    (with_archive demo_browser
       [("a.jpg", "A2"); ("a.jpg", "A1"); ("b.jpg", "B"); ("c.jpg", "C")])
    "/img/manifest.json" demo_zip_manifest []
    = Some (inr [Some (ImageBitmap "A1"); Some (ImageBitmap "B");
                 Some (ImageBitmap "C")]).
Proof. split_and!; vm_compute; reflexivity. Qed.

(** * The playback clock *)

Lemma drawn_app tr1 tr2 : drawn (tr1 ++ tr2) = drawn tr1 ++ drawn tr2.
Proof. unfold drawn. apply omap_app. Qed.

Lemma closed_app tr1 tr2 : closed (tr1 ++ tr2) = closed tr1 ++ closed tr2.
Proof. unfold closed. apply omap_app. Qed.

Lemma count_event_app f tr1 tr2 :
  count_event f (tr1 ++ tr2) = count_event f tr1 + count_event f tr2.
Proof. unfold count_event. by rewrite List.filter_app, length_app. Qed.

(** [drawFrame] paints nothing, and changes nothing else, when it finds no
    asset at the index or no canvas. *)
Lemma drawFrame_noop index s :
  canvasRef s = None ∨ js_get (framesRef s) index = None →
  drawFrame index s = emit (DrawFrame index) s.
Proof.
  intros H. unfold drawFrame. simpl.
  destruct (canvasRef s); [|done].
  destruct H as [H|H]; [done|]. by rewrite H.
Qed.

Lemma drawFrame_fields index s :
  manifestRef (drawFrame index s) = manifestRef s ∧
  framesRef (drawFrame index s) = framesRef s ∧
  audioRef (drawFrame index s) = audioRef s ∧
  rafRef (drawFrame index s) = rafRef s ∧
  startTimeRef (drawFrame index s) = startTimeRef s ∧
  currentFrameRef (drawFrame index s) = currentFrameRef s ∧
  isMounted (drawFrame index s) = isMounted s ∧
  pc (drawFrame index s) = pc s ∧
  rafQueue (drawFrame index s) = rafQueue s ∧
  nextHandle (drawFrame index s) = nextHandle s ∧
  trace (drawFrame index s) = trace s ++ [DrawFrame index].
Proof.
  unfold drawFrame. simpl.
  destruct (canvasRef s); [|done].
  by destruct (js_get (framesRef s) index).
Qed.

(** What the tail of [tick] does, field by field. *)
Lemma tick_draw_fields i s :
  manifestRef (tick_draw i s) = manifestRef s ∧
  framesRef (tick_draw i s) = framesRef s ∧
  audioRef (tick_draw i s) = audioRef s ∧
  startTimeRef (tick_draw i s) = startTimeRef s ∧
  isMounted (tick_draw i s) = isMounted s ∧
  pc (tick_draw i s) = pc s ∧
  rafRef (tick_draw i s) = Some (nextHandle s) ∧
  rafQueue (tick_draw i s) = rafQueue s ++ [nextHandle s] ∧
  nextHandle (tick_draw i s) = S (nextHandle s) ∧
  currentFrameRef (tick_draw i s) =
    (if js_neq i (currentFrameRef s) then i else currentFrameRef s) ∧
  trace (tick_draw i s) = trace s ++
    (if js_neq i (currentFrameRef s) then [DrawFrame i] else []) ++
    [RequestFrame (nextHandle s)].
Proof.
  unfold tick_draw.
  destruct (js_neq i (currentFrameRef s)).
  - pose proof (drawFrame_fields i (set_currentFrameRef i s))
      as (? & ? & ? & ? & ? & ? & ? & ? & Hq & Hn & Ht).
    unfold requestAnimationFrame. simpl. rewrite Hq, Hn, Ht. simpl.
    split_and!; try done. by rewrite <- app_assoc.
  - simpl. split_and!; done.
Qed.

(** The branch of [tick] that ends a playback without loop. *)
Lemma tick_end_fields P now s m :
  manifestRef s = Some m →
  (Z.of_nat (length (framesRef s)) ≤ frame_index P m now s)%Z →
  loop P = false →
  manifestRef (tick P now s) = manifestRef s ∧
  framesRef (tick P now s) = framesRef s ∧
  audioRef (tick P now s) = audioRef s ∧
  startTimeRef (tick P now s) = startTimeRef s ∧
  currentFrameRef (tick P now s) = currentFrameRef s ∧
  rafRef (tick P now s) = rafRef s ∧
  nextHandle (tick P now s) = nextHandle s ∧
  rafQueue (tick P now s) =
    match rafRef s with
    | Some h => filter (fun h' => h' ≠ h) (rafQueue s)
    | None => rafQueue s
    end ∧
  trace (tick P now s) = trace s ++ [DrawFrame (Some (Z.of_nat (length (framesRef s)) - 1)%Z)] ++
    match rafRef s with Some h => [CancelFrame h] | None => [] end ++
    (if onEnd P then [OnEnd] else []).
Proof.
  intros Hm Hge Hloop. unfold tick. rewrite Hm, Hloop.
  apply Z.leb_le in Hge. rewrite Hge.
  pose proof (drawFrame_fields
                (Some (Z.of_nat (length (framesRef s)) - 1)%Z) s)
    as (Hmf & ? & ? & Hr & ? & ? & ? & ? & Hq & Hn & Ht).
  rewrite Hr.
  destruct (rafRef s) as [h|]; destruct (onEnd P); simpl;
    rewrite ?Hq, ?Hn, ?Ht; split_and!; try done; try congruence;
    by rewrite <- ?app_assoc.
Qed.

(** The branches of [tick] that go on: the index is below the frame count,
    or it is wrapped. *)
Lemma tick_below P now s m :
  manifestRef s = Some m →
  (frame_index P m now s < Z.of_nat (length (framesRef s)))%Z →
  tick P now s = tick_draw (Some (frame_index P m now s)) s.
Proof.
  intros Hm Hlt. unfold tick. rewrite Hm.
  apply Z.leb_gt in Hlt. by rewrite Hlt.
Qed.

Lemma js_rem_mod a b : (0 < b ≤ a)%Z → js_rem a b = Some (a mod b)%Z.
Proof.
  intros H. unfold js_rem.
  destruct (b =? 0)%Z eqn:Hb; [lia|].
  f_equal. apply Z.rem_mod_nonneg; lia.
Qed.

Lemma frame_index_mono P m s t1 t2 :
  (0 <= effective_fps P m)%Q → (t1 <= t2)%Q →
  (frame_index P m t1 s ≤ frame_index P m t2 s)%Z.
Proof.
  intros Hfps Ht. unfold frame_index.
  apply Qfloor_resp_le. apply js_mul_mono; [done|].
  apply js_div_mono; [done|]. by apply js_sub_mono.
Qed.

Lemma frame_index_start P m s : frame_index P m (startTimeRef s) s = 0%Z.
Proof.
  unfold frame_index, js_mul, js_div, js_sub.
  assert (H0 : (round64 (startTimeRef s - startTimeRef s) == 0)%Q).
  { assert (H : (startTimeRef s - startTimeRef s == 0)%Q) by lra.
    by rewrite H. }
  assert (H1 : (round64 (round64 (startTimeRef s - startTimeRef s) / 1000) == 0)%Q).
  { assert (H : (round64 (startTimeRef s - startTimeRef s) / 1000 == 0)%Q).
    { rewrite H0. reflexivity. }
    by rewrite H. }
  assert (H2 : (round64 (round64 (round64 (startTimeRef s - startTimeRef s) / 1000)
                           * effective_fps P m) == 0)%Q).
  { assert (H : (round64 (round64 (startTimeRef s - startTimeRef s) / 1000)
                   * effective_fps P m == 0)%Q).
    { rewrite H1. apply Qmult_0_l. }
    by rewrite H. }
  by rewrite H2.
Qed.

Lemma frame_index_nonneg P m s now :
  (0 <= effective_fps P m)%Q → (startTimeRef s <= now)%Q →
  (0 ≤ frame_index P m now s)%Z.
Proof.
  intros Hfps Hnow. rewrite <- (frame_index_start P m s).
  by apply frame_index_mono.
Qed.

Lemma refresh_idle P now s : rafQueue s = [] → refresh P now s = s.
Proof. intros H. unfold refresh. by rewrite H. Qed.

Lemma play_idle P times s : rafQueue s = [] → play P times s = s.
Proof.
  intros H. induction times as [|t ts IH]; [done|].
  simpl. by rewrite refresh_idle.
Qed.

Lemma effective_fps_spec P m :
  (∀ f, fpsProp P = Some f → ¬ (f == 0)%Q) →
  (∀ f, fps m = Some f → ¬ (f == 0)%Q) →
  effective_fps P m = spec_fps (fpsProp P) (fps m).
Proof.
  intros Hp Hm. unfold effective_fps, spec_fps, or_num, truthy_num.
  destruct (fpsProp P) as [f|].
  - specialize (Hp f eq_refl).
    destruct (Qeq_bool f 0) eqn:E; [by apply Qeq_bool_iff in E|done].
  - simpl. destruct (fps m) as [f|]; [|done].
    specialize (Hm f eq_refl).
    destruct (Qeq_bool f 0) eqn:E; [by apply Qeq_bool_iff in E|done].
Qed.

(** C2. A tick computes [Math.floor(elapsed * fps)] in the arithmetic of
    the code, binary64: the elapsed time is counted from [startTimeRef], in
    seconds, and the rate is the prop override, else the manifest rate, else
    25. Below the frame count this is the index the tick settles on, and
    draws if it is new; at or beyond it, with [loop], the index is wrapped
    modulo the frame count, and an audio track that has ended is rewound to
    position zero and played again. *)
Theorem tick_frame_index P now s m :
  manifestRef s = Some m →
  (∀ f, fpsProp P = Some f → ¬ (f == 0)%Q) →
  (∀ f, fps m = Some f → ¬ (f == 0)%Q) →
  let elapsed := round64 (round64 (now - startTimeRef s) / 1000) in
  let idx := Qfloor (round64 (elapsed * spec_fps (fpsProp P) (fps m))) in
  let n := Z.of_nat (length (framesRef s)) in
  frame_index P m now s = idx ∧
  ((idx < n)%Z →
     currentFrameRef (tick P now s) = Some idx ∧
     drawn (trace (tick P now s)) = drawn (trace s) ++
       (if js_neq (Some idx) (currentFrameRef s) then [Some idx] else [])) ∧
  ((n ≤ idx)%Z → (0 < n)%Z → loop P = true →
     currentFrameRef (tick P now s) = Some (idx mod n)%Z ∧
     drawn (trace (tick P now s)) = drawn (trace s) ++
       (if js_neq (Some (idx mod n)%Z) (currentFrameRef s)
        then [Some (idx mod n)%Z] else []) ∧
     (∀ a, audioRef s = Some a → ended a = true →
        (∃ a', audioRef (tick P now s) = Some a' ∧
               currentTime a' = 0%Q ∧ ended a' = false ∧ paused a' = false ∧
               src a' = src a) ∧
        count_event is_AudioPlay (trace (tick P now s))
          = S (count_event is_AudioPlay (trace s))) ∧
     (∀ a, audioRef s = Some a → ended a = false →
        audioRef (tick P now s) = Some a ∧
        count_event is_AudioPlay (trace (tick P now s))
          = count_event is_AudioPlay (trace s))).
Proof.
  intros Hm Hp Hf elapsed idx n.
  assert (Hidx : frame_index P m now s = idx).
  { unfold frame_index. by rewrite effective_fps_spec. }
  assert (Hcur : ∀ i s0, currentFrameRef (tick_draw (Some i) s0) = Some i).
  { intros i s0. pose proof (tick_draw_fields (Some i) s0) as H.
    destruct H as (_ & _ & _ & _ & _ & _ & _ & _ & _ & -> & _).
    unfold js_neq. destruct (currentFrameRef s0) as [c|]; [|done].
    destruct (i =? c)%Z eqn:E; [|done]. apply Z.eqb_eq in E. by subst. }
  assert (Hplay : ∀ i s0 tr, trace s0 = tr →
            count_event is_AudioPlay (trace (tick_draw i s0))
            = count_event is_AudioPlay tr).
  { intros i s0 tr <-. pose proof (tick_draw_fields i s0) as H.
    destruct H as (_ & _ & _ & _ & _ & _ & _ & _ & _ & _ & ->).
    rewrite !count_event_app.
    destruct (js_neq i (currentFrameRef s0)); simpl; unfold count_event;
      simpl; lia. }
  assert (Hdrawn : ∀ i s0,
            drawn (trace (tick_draw i s0)) = drawn (trace s0) ++
              (if js_neq i (currentFrameRef s0) then [i] else [])).
  { intros i s0. pose proof (tick_draw_fields i s0) as H.
    destruct H as (_ & _ & _ & _ & _ & _ & _ & _ & _ & _ & ->).
    rewrite !drawn_app.
    destruct (js_neq i (currentFrameRef s0)); simpl; by rewrite ?app_nil_r. }
  assert (Haud : ∀ i s0, audioRef (tick_draw i s0) = audioRef s0).
  { intros i s0. pose proof (tick_draw_fields i s0) as H. tauto. }
  split_and!; [done| |].
  - intros Hlt. rewrite (tick_below P now s m Hm); rewrite Hidx; [|done].
    split; [apply Hcur|apply Hdrawn].
  - intros Hge Hpos Hloop.
    assert (Htick : tick P now s =
              tick_draw (Some (idx mod n)%Z)
                match audioRef s with
                | Some a =>
                    if ended a
                    then emit AudioPlay (set_audioRef (Some (restart a)) s)
                    else s
                | None => s
                end).
    { unfold tick. rewrite Hm, Hidx, Hloop. fold n.
      apply Z.leb_le in Hge. rewrite Hge.
      rewrite js_rem_mod; [done|]. apply Z.leb_le in Hge. lia. }
    rewrite Htick. split_and!.
    + apply Hcur.
    + rewrite Hdrawn. destruct (audioRef s) as [a|]; [|done].
      destruct (ended a); [|done].
      cbn [trace currentFrameRef emit set_audioRef].
      rewrite drawn_app. simpl. by rewrite app_nil_r.
    + intros a Ha He. rewrite Ha, He, Haud. split.
      * exists (restart a). by split_and!.
      * erewrite Hplay; [|done]. simpl. rewrite count_event_app.
        unfold count_event at 2. simpl. lia.
    + intros a Ha He. rewrite Ha, He, Haud. split; [done|].
      by erewrite Hplay.
Qed.

(** The looping scenario: three frames at 10 frames per second, 0.35 s after
    the start, the frame on display being the last one. And a clip of forty
    frames at 100 frames per second, 0.29 s after the start: the quotient
    290/1000 and its product with 100 are rounded, to 28.999999999999996, of
    which the index is the floor. *)
Lemma tick_frame_index_witness :
  currentFrameRef
    (tick (demo_props true) 350
       (set_currentFrameRef (Some 2%Z) (demo_ready true)))
  = Some 0%Z ∧
  currentFrameRef (tick (demo_props false) 290 fast_ready) = Some 28%Z.
Proof.
  split.
  - refine (proj1 (proj2 (proj2
      (tick_frame_index (demo_props true) 350
         (set_currentFrameRef (Some 2%Z) (demo_ready true)) demo_manifest
         eq_refl _ _)) _ _ eq_refl)).
    + intros f Hf. discriminate Hf.
    + intros f Hf. injection Hf as <-. intros H. discriminate H.
    + vm_compute. discriminate.
    + vm_compute. reflexivity.
  - refine (proj1 (proj1 (proj2
      (tick_frame_index (demo_props false) 290 fast_ready fast_manifest
         _ _ _)) _)).
    + vm_compute. reflexivity.
    + intros f Hf. discriminate Hf.
    + intros f Hf. injection Hf as <-. intros H. discriminate H.
    + vm_compute. reflexivity.
Defined.

(** The floor of the exact product at these times is 29. *)
Lemma exact_product_floor :
  frame_index (demo_props false) fast_manifest 290 fast_ready = 28%Z ∧
  Qfloor ((290 - 0) / 1000 * 100) = 29%Z.
Proof. split; vm_compute; reflexivity. Qed.

(** C10. With an empty frame store and no loop, the first tick calls
    [drawFrame(-1)], which paints nothing ([drawFrame] does nothing but
    return when there is no asset at the index or no canvas), calls [onEnd]
    once and leaves no tick scheduled: no later refresh changes the state. *)
Theorem first_tick_on_empty_store P now s m h :
  manifestRef s = Some m →
  framesRef s = [] →
  loop P = false →
  onEnd P = true →
  rafQueue s = [h] →
  rafRef s = Some h →
  (0 <= effective_fps P m)%Q →
  (startTimeRef s <= now)%Q →
  (∀ i s0, canvasRef s0 = None ∨ js_get (framesRef s0) i = None →
     drawFrame i s0 = emit (DrawFrame i) s0) ∧
  trace (refresh P now s)
    = trace s ++ [DrawFrame (Some (-1)%Z); CancelFrame h; OnEnd] ∧
  canvasRef (refresh P now s) = canvasRef s ∧
  rafQueue (refresh P now s) = [] ∧
  (∀ times, play P times (refresh P now s) = refresh P now s).
Proof.
  intros Hm Hfr Hloop Hend Hq Hr Hfps Hnow.
  split; [exact drawFrame_noop|].
  pose proof (frame_index_nonneg P m s now Hfps Hnow) as Hidx.
  assert (Hrefresh : refresh P now s =
            emit OnEnd (cancelAnimationFrame h
              (emit (DrawFrame (Some (-1)%Z)) (set_raf [] (nextHandle s) s)))).
  { unfold refresh. rewrite Hq.
    set (s1 := set_raf [] (nextHandle s) s).
    assert (Hm1 : manifestRef s1 = Some m) by done.
    assert (Hfr1 : framesRef s1 = []) by done.
    assert (Hr1 : rafRef s1 = Some h) by done.
    unfold tick. rewrite Hm1, Hfr1, Hloop.
    change (Z.of_nat (length [])) with 0%Z.
    replace (frame_index P m now s1) with (frame_index P m now s) by done.
    apply Z.leb_le in Hidx. rewrite Hidx.
    change (0 - 1)%Z with (-1)%Z.
    rewrite drawFrame_noop; [|right; by rewrite Hfr1].
    cbn [rafRef emit]. by rewrite Hr1, Hend. }
  assert (Hempty : rafQueue (refresh P now s) = []).
  { by rewrite Hrefresh. }
  split_and!; try done.
  - by rewrite Hrefresh; simpl; rewrite <- !app_assoc.
  - by rewrite Hrefresh.
  - intros times. by apply play_idle.
Qed.

Lemma first_tick_on_empty_store_witness :
  trace (refresh (demo_props false) 40 empty_ready)
  = trace empty_ready ++ [DrawFrame (Some (-1)%Z); CancelFrame 1; OnEnd].
Proof.
  refine (proj1 (proj2
    (first_tick_on_empty_store (demo_props false) 40 empty_ready
       empty_manifest 1 eq_refl eq_refl eq_refl eq_refl eq_refl eq_refl _ _))).
  - vm_compute. discriminate.
  - vm_compute. discriminate.
Defined.

Lemma frame_index_ext P m now s1 s2 :
  startTimeRef s1 = startTimeRef s2 →
  frame_index P m now s1 = frame_index P m now s2.
Proof. intros H. unfold frame_index. by rewrite H. Qed.

Lemma js_neq_Some a b : js_neq (Some a) (Some b) = negb (a =? b)%Z.
Proof. done. Qed.

(** A tick that goes on, on the state left by the refresh. *)
Lemma tick_step P now s m target :
  manifestRef s = Some m →
  tick P now s = tick_draw (Some target) s ∨
  (∃ a, audioRef s = Some a ∧
        tick P now s = tick_draw (Some target)
                         (emit AudioPlay (set_audioRef (Some (restart a)) s))) →
  manifestRef (tick P now s) = Some m ∧
  framesRef (tick P now s) = framesRef s ∧
  startTimeRef (tick P now s) = startTimeRef s ∧
  rafQueue (tick P now s) = rafQueue s ++ [nextHandle s] ∧
  currentFrameRef (tick P now s) = Some target ∧
  drawn (trace (tick P now s)) = drawn (trace s) ++
    (if js_neq (Some target) (currentFrameRef s) then [Some target] else []) ∧
  count_event is_OnEnd (trace (tick P now s)) = count_event is_OnEnd (trace s).
Proof.
  intros Hm [Ht|(a & Ha & Ht)]; rewrite Ht.
  - pose proof (tick_draw_fields (Some target) s)
      as (-> & -> & _ & -> & _ & _ & _ & -> & _ & -> & ->).
    split_and!; try done.
    + unfold js_neq. destruct (currentFrameRef s) as [c|]; [|done].
      destruct (target =? c)%Z eqn:E; [|done]. apply Z.eqb_eq in E. by subst.
    + rewrite !drawn_app.
      destruct (js_neq _ _); simpl; by rewrite ?app_nil_r.
    + rewrite !count_event_app.
      destruct (js_neq _ _); unfold count_event; simpl; lia.
  - pose proof (tick_draw_fields (Some target)
                  (emit AudioPlay (set_audioRef (Some (restart a)) s)))
      as (-> & -> & _ & -> & _ & _ & _ & -> & _ & -> & ->).
    cbn [manifestRef framesRef startTimeRef rafQueue nextHandle
         currentFrameRef trace emit set_audioRef].
    split_and!; try done.
    + unfold js_neq. destruct (currentFrameRef s) as [c|]; [|done].
      destruct (target =? c)%Z eqn:E; [|done]. apply Z.eqb_eq in E. by subst.
    + rewrite !drawn_app.
      destruct (js_neq _ _); simpl; by rewrite ?app_nil_r.
    + rewrite !count_event_app.
      destruct (js_neq _ _); unfold count_event; simpl; lia.
Qed.

(** Which index a tick that goes on settles on. *)
Lemma tick_goes_on P now s m :
  manifestRef s = Some m →
  let idx := frame_index P m now s in
  let n := Z.of_nat (length (framesRef s)) in
  (idx < n)%Z ∨ (loop P = true ∧ (0 < n)%Z) →
  let target := if (n <=? idx)%Z then (idx mod n)%Z else idx in
  tick P now s = tick_draw (Some target) s ∨
  (∃ a, audioRef s = Some a ∧
        tick P now s = tick_draw (Some target)
                         (emit AudioPlay (set_audioRef (Some (restart a)) s))).
Proof.
  intros Hm idx n Hcase target. unfold target.
  destruct (n <=? idx)%Z eqn:Hle.
  - apply Z.leb_le in Hle. destruct Hcase as [Hlt|[Hloop Hpos]]; [lia|].
    unfold tick. rewrite Hm, Hloop. fold idx n.
    apply Z.leb_le in Hle. rewrite Hle. apply Z.leb_le in Hle.
    rewrite js_rem_mod by lia.
    destruct (audioRef s) as [a|]; [|by left].
    destruct (ended a); [right; by exists a|by left].
  - left. apply Z.leb_gt in Hle. by apply tick_below.
Qed.

Lemma refresh_pop P now s h q :
  rafQueue s = h :: q →
  refresh P now s = tick P now (set_raf q (nextHandle s) s).
Proof. intros H. unfold refresh. by rewrite H. Qed.

(** With [loop], on a store that is not empty, no two draws in a row carry
    the same index, a wrap included. *)
Lemma play_loop_distinct P m times :
  loop P = true →
  ∀ s c,
    manifestRef s = Some m →
    0 < length (framesRef s) →
    currentFrameRef s = Some c →
    ∃ ds, drawn (trace (play P times s)) = drawn (trace s) ++ ds ∧
          distinct_neighbours (Some c :: ds).
Proof.
  intros Hloop. induction times as [|t ts IH]; intros s c Hm Hn Hc.
  - exists []. split; [by rewrite app_nil_r|done].
  - simpl. destruct (rafQueue s) as [|h q] eqn:Hq.
    + rewrite refresh_idle by done. by apply IH.
    + rewrite (refresh_pop _ _ _ _ _ Hq).
      set (s1 := set_raf q (nextHandle s) s).
      assert (Hm1 : manifestRef s1 = Some m) by done.
      pose proof (tick_goes_on P t s1 m Hm1) as Hgo. simpl in Hgo.
      specialize (Hgo ltac:(right; split; [done|simpl; lia])).
      destruct (tick_step P t s1 m _ Hm1 Hgo)
        as (Hm2 & Hf2 & _ & _ & Hc2 & Hd2 & _).
      destruct (IH _ _ Hm2 ltac:(by rewrite Hf2) Hc2) as (ds2 & Hds2 & Hdist).
      rewrite Hds2, Hd2.
      change (currentFrameRef s1) with (currentFrameRef s). rewrite Hc.
      change (trace s1) with (trace s). rewrite <- app_assoc.
      eexists. split; [done|].
      rewrite js_neq_Some.
      match goal with |- context [(?a =? c)%Z] =>
        destruct (Z.eqb_spec a c) as [Heq|Hne] end; simpl.
      * by rewrite <- Heq.
      * split; [congruence|done].
Qed.

Lemma Sorted_lt_snoc_le (l : list Z) x :
  Sorted Z.lt l → Forall (fun d => (d ≤ x)%Z) l → Sorted Z.le (l ++ [x]).
Proof.
  induction l as [|a l IH]; intros Hs Hall; simpl.
  - repeat constructor.
  - apply Sorted_inv in Hs as [Hs Hhd].
    apply Forall_cons in Hall as [Ha Hall].
    constructor; [by apply IH|].
    destruct l as [|b l]; simpl; constructor; [done|].
    apply HdRel_inv in Hhd. lia.
Qed.

(** A playback without loop, tick by tick. [s0] fixes the clock. *)
Lemma play_forward P m s0 times :
  loop P = false →
  onEnd P = true →
  ∀ s c h,
    manifestRef s = Some m →
    length (framesRef s) = length (framesRef s0) →
    startTimeRef s = startTimeRef s0 →
    currentFrameRef s = Some c →
    (c < Z.of_nat (length (framesRef s0)))%Z →
    rafQueue s = [h] →
    Sorted Z.le (c :: map (fun t => frame_index P m t s0) times) →
    ∃ ds,
      drawn (trace (play P times s)) = drawn (trace s) ++ map Some ds ∧
      (Forall (fun t => (frame_index P m t s0 < Z.of_nat (length (framesRef s0)))%Z)
         times →
       Sorted Z.lt (c :: ds) ∧
       Forall (fun d => (d < Z.of_nat (length (framesRef s0)))%Z) ds ∧
       count_event is_OnEnd (trace (play P times s))
         = count_event is_OnEnd (trace s) ∧
       ∃ h', rafQueue (play P times s) = [h']) ∧
      (Exists (fun t => (Z.of_nat (length (framesRef s0)) ≤ frame_index P m t s0)%Z)
         times →
       ∃ ds', ds = ds' ++ [(Z.of_nat (length (framesRef s0)) - 1)%Z] ∧
         Sorted Z.lt (c :: ds') ∧
         Forall (fun d => (d < Z.of_nat (length (framesRef s0)))%Z) ds' ∧
         count_event is_OnEnd (trace (play P times s))
           = S (count_event is_OnEnd (trace s)) ∧
         rafQueue (play P times s) = [] ∧
         last (trace (play P times s)) = Some OnEnd).
Proof.
  intros Hloop Hend.
  induction times as [|t ts IH]; intros s c h Hm Hlen Hst Hc Hcn Hq Hsorted.
  - exists []. split_and!.
    + by rewrite app_nil_r.
    + intros _. split_and!; [repeat constructor|constructor|done|eauto].
    + intros Hex. by apply Exists_nil in Hex.
  - simpl in Hsorted. apply Sorted_inv in Hsorted as [Hsorted Hhd].
    apply HdRel_inv in Hhd.
    simpl. rewrite (refresh_pop _ _ _ _ _ Hq).
    set (s1 := set_raf [] (nextHandle s) s).
    assert (Hm1 : manifestRef s1 = Some m) by done.
    assert (Hix : frame_index P m t s1 = frame_index P m t s0).
    { by apply frame_index_ext. }
    destruct (Z.lt_ge_cases (frame_index P m t s0)
                (Z.of_nat (length (framesRef s0)))) as [Hlt|Hge].
    + (* the tick goes on *)
      pose proof (tick_goes_on P t s1 m Hm1) as Hgo. simpl in Hgo.
      rewrite Hix in Hgo. change (framesRef s1) with (framesRef s) in Hgo.
      rewrite Hlen in Hgo. specialize (Hgo ltac:(by left)).
      apply Z.leb_gt in Hlt. rewrite Hlt in Hgo. apply Z.leb_gt in Hlt.
      destruct (tick_step P t s1 m _ Hm1 Hgo)
        as (Hm2 & Hf2 & Hs2 & Hq2 & Hc2 & Hd2 & He2).
      change (currentFrameRef s1) with (currentFrameRef s) in Hd2.
      change (trace s1) with (trace s) in Hd2, He2.
      rewrite Hc, js_neq_Some in Hd2.
      destruct (IH (tick P t s1) (frame_index P m t s0) (nextHandle s))
        as (ds2 & Hds2 & Hplaying & Hended); try done.
      { by rewrite Hf2. }
      { by rewrite Hs2. }
      rewrite He2 in Hplaying, Hended.
      destruct (Z.eqb_spec (frame_index P m t s0) c) as [Heq|Hne];
        simpl in Hd2.
      * (* the index has not changed: nothing is drawn *)
        exists ds2. rewrite Hds2, Hd2, app_nil_r, <- Heq.
        split_and!; [done| |].
        -- intros Hall. apply Forall_cons in Hall as [_ Hall]. by apply Hplaying.
        -- intros Hex. apply Exists_cons in Hex as [Hex|Hex]; [lia|].
           by apply Hended.
      * (* a new index: it is drawn *)
        exists (frame_index P m t s0 :: ds2).
        rewrite Hds2, Hd2, <- app_assoc.
        split_and!; [done| |].
        -- intros Hall. apply Forall_cons in Hall as [_ Hall].
           destruct (Hplaying Hall) as (Hs & Hf & Hcnt & Hh).
           split_and!; try done.
           ++ constructor; [done|]. constructor. lia.
           ++ by constructor.
        -- intros Hex. apply Exists_cons in Hex as [Hex|Hex]; [lia|].
           destruct (Hended Hex) as (ds' & -> & Hs & Hf & Hcnt & Hrq & Hl).
           exists (frame_index P m t s0 :: ds'). split_and!; try done.
           ++ constructor; [done|]. constructor. lia.
           ++ by constructor.
    + (* the tick ends the playback *)
      assert (Hge1 : (Z.of_nat (length (framesRef s1)) ≤ frame_index P m t s1)%Z).
      { rewrite Hix. change (framesRef s1) with (framesRef s). by rewrite Hlen. }
      pose proof (tick_end_fields P t s1 m Hm1 Hge1 Hloop)
        as (_ & _ & _ & _ & _ & _ & _ & Hq2 & Ht2).
      change (framesRef s1) with (framesRef s) in Ht2. rewrite Hlen in Ht2.
      change (trace s1) with (trace s) in Ht2. rewrite Hend in Ht2.
      assert (Hq3 : rafQueue (tick P t s1) = []).
      { rewrite Hq2. by destruct (rafRef s1). }
      rewrite (play_idle _ _ _ Hq3).
      exists [(Z.of_nat (length (framesRef s0)) - 1)%Z].
      split_and!.
      * rewrite Ht2, !drawn_app. destruct (rafRef s1); by simpl.
      * intros Hall. apply Forall_cons in Hall as [Hall _]. lia.
      * intros _. exists []. split_and!; try done.
        -- repeat constructor.
        -- rewrite Ht2, !count_event_app.
           destruct (rafRef s1); unfold count_event; simpl; lia.
        -- rewrite Ht2, !app_assoc. apply last_snoc.
Qed.

Lemma frame_index_sorted P m s t0 times :
  (0 <= effective_fps P m)%Q →
  Sorted Qle (t0 :: times) →
  Sorted Z.le (frame_index P m t0 s :: map (fun t => frame_index P m t s) times).
Proof.
  intros Hfps. revert t0. induction times as [|t ts IH]; intros t0 Hs; simpl.
  - repeat constructor.
  - apply Sorted_inv in Hs as [Hs Hhd]. apply HdRel_inv in Hhd.
    constructor; [by apply IH|]. constructor. by apply frame_index_mono.
Qed.

Lemma Sorted_lt_le (l : list Z) : Sorted Z.lt l → Sorted Z.le l.
Proof.
  induction 1 as [|a l Hs IH Hhd]; constructor; [done|].
  destruct Hhd; constructor. lia.
Qed.

Lemma Sorted_lt_bound (l : list Z) c x :
  Sorted Z.lt (c :: l) → (c ≤ x)%Z → Forall (fun d => (d < x + 1)%Z) l →
  Forall (fun d => (d ≤ x)%Z) (c :: l).
Proof.
  intros _ Hc Hall. constructor; [done|].
  eapply Forall_impl; [exact Hall|]. simpl. intros. lia.
Qed.

(** * The claims about playback *)

Lemma distinct_neighbours_app {A} (l1 l2 : list A) x :
  distinct_neighbours l1 → last l1 = Some x → distinct_neighbours (x :: l2) →
  distinct_neighbours (l1 ++ l2).
Proof.
  induction l1 as [|a l1 IH]; intros H1 Hlast H2; [done|].
  destruct l1 as [|b l1].
  - simpl in Hlast. by simplify_eq.
  - destruct H1 as [Hab H1]. split; [done|].
    apply IH; [done| |done]. by rewrite last_cons_cons in Hlast.
Qed.

(** C3, as the code has it. A tick that goes on (its index is below the frame
    count, or is wrapped modulo a frame count that is not zero) calls
    [drawFrame] exactly when that index differs from the one recorded in
    [currentFrameRef], once, with that index, and records it. So with
    [loop] no two calls in a row that ticks make carry the same index, a
    wrap included, and the first differs from the index that
    [currentFrameRef] held; when that index is also the one drawn last, as
    after the first setup of a component, where both are 0, no two calls in
    a row carry the same index at all. The tick that ends a playback without
    loop calls [drawFrame(N-1)] whatever was drawn before. *)
Theorem draw_only_on_change P m s :
  manifestRef s = Some m →
  (∀ now,
     let idx := frame_index P m now s in
     let n := Z.of_nat (length (framesRef s)) in
     (idx < n)%Z ∨ (loop P = true ∧ (0 < n)%Z) →
     let target := if (n <=? idx)%Z then (idx mod n)%Z else idx in
     drawn (trace (tick P now s))
       = drawn (trace s) ++
         (if js_neq (Some target) (currentFrameRef s) then [Some target] else []) ∧
     currentFrameRef (tick P now s) = Some target) ∧
  (loop P = true → 0 < length (framesRef s) →
   ∀ c times, currentFrameRef s = Some c →
     ∃ ds, drawn (trace (play P times s)) = drawn (trace s) ++ ds ∧
           distinct_neighbours (Some c :: ds) ∧
           (last (drawn (trace s)) = Some (Some c) →
            distinct_neighbours (drawn (trace s)) →
            distinct_neighbours (drawn (trace (play P times s))))) ∧
  (loop P = false →
   ∀ now, (Z.of_nat (length (framesRef s)) ≤ frame_index P m now s)%Z →
     drawn (trace (tick P now s))
       = drawn (trace s) ++ [Some (Z.of_nat (length (framesRef s)) - 1)%Z]).
Proof.
  intros Hm. split_and!.
  - intros now idx n Hcase target.
    pose proof (tick_goes_on P now s m Hm Hcase) as Hgo.
    destruct (tick_step P now s m _ Hm Hgo) as (_ & _ & _ & _ & Hc & Hd & _).
    done.
  - intros Hloop Hn c times Hc.
    destruct (play_loop_distinct P m times Hloop s c Hm Hn Hc) as (ds & Hds & Hdist).
    exists ds. split_and!; [done|done|].
    intros Hlast Hbefore. rewrite Hds. by eapply distinct_neighbours_app.
  - intros Hloop now Hge.
    pose proof (tick_end_fields P now s m Hm Hge Hloop)
      as (_ & _ & _ & _ & _ & _ & _ & _ & ->).
    rewrite !drawn_app.
    destruct (rafRef s), (onEnd P); simpl; by rewrite ?app_nil_r.
Qed.

(** The looping clip after its first setup: the draw of the setup and the
    draws of the ticks at 0.10, 0.25, 0.35 and 0.40 s. *)
Lemma draw_only_on_change_witness :
  distinct_neighbours
    (drawn (trace (play (demo_props true) [100; 250; 350; 400]%Q (demo_ready true)))).
Proof.
  destruct (proj1 (proj2
    (draw_only_on_change (demo_props true) demo_manifest (demo_ready true)
       eq_refl)) eq_refl ltac:(vm_compute; lia) 0%Z [100; 250; 350; 400]%Q eq_refl)
    as (ds & _ & _ & Hall).
  apply Hall; vm_compute; done.
Defined.

(** C3 as stated fails: without loop, 0.25 s and then 0.35 s after the start
    of the three-frame clip, [drawFrame] is called with 2 and then with 2
    again, the second time while [floor(elapsed * fps)] is 3. And with loop,
    when the effect runs again after frame 2 was drawn (a tick at 0.25 s, the
    cleanup, a second setup that is ready at 1 s), the setup calls
    [drawFrame(0)] and the tick at 1.05 s calls it again, [currentFrameRef]
    still holding 2. *)
Lemma draw_only_on_change_counterexample :
  loop (demo_props false) = false ∧
  frame_index (demo_props false) demo_manifest 350 (demo_ready false) = 3%Z ∧
  drawn (trace (play (demo_props false) [250; 350]%Q (demo_ready false)))
    = [Some 0; Some 2; Some 2]%Z ∧
  ¬ distinct_neighbours
      (drawn (trace (play (demo_props false) [250; 350]%Q (demo_ready false)))) ∧
  ∃ s1 s2,
    run (demo_props true) demo_browser [Refresh 250; Unmount] (demo_ready true)
      = inr s1 ∧
    run (demo_props true) demo_browser
      [ManifestResponse; FramesSettled [2; 0; 1]; CanPlayThrough;
       PlaySettled (inr tt) 1000; Refresh 1050] (mount s1) = inr s2 ∧
    drawn (trace s2) = [Some 0; Some 2; Some 0; Some 0]%Z.
Proof.
  split_and!; [reflexivity|vm_compute; reflexivity|vm_compute; reflexivity| |].
  - vm_compute. intros (_ & H & _). by apply H.
  - eexists. eexists.
    split; [vm_compute; reflexivity|]. split; vm_compute; reflexivity.
Qed.

(** C4, as the code has it. In a playback without loop of a store of [N > 0]
    frames, the ticks before the end draw strictly increasing indices below
    [N]; the first tick whose index reaches [N] draws [N - 1] once more,
    calls [onEnd] once and leaves no tick scheduled, so that nothing is drawn
    or signalled afterwards. The sequence of drawn indices is finite and
    non-decreasing: the last draw may repeat the index drawn before it. *)
Theorem forward_playback_ends_once P m s h times :
  loop P = false →
  onEnd P = true →
  manifestRef s = Some m →
  0 < length (framesRef s) →
  currentFrameRef s = Some 0%Z →
  rafQueue s = [h] →
  (0 <= effective_fps P m)%Q →
  Sorted Qle (startTimeRef s :: times) →
  ∃ ds,
    drawn (trace (play P times s)) = drawn (trace s) ++ map Some ds ∧
    Sorted Z.le (0%Z :: ds) ∧
    (Forall (fun t => (frame_index P m t s < Z.of_nat (length (framesRef s)))%Z)
       times →
     Sorted Z.lt (0%Z :: ds) ∧
     Forall (fun d => (d < Z.of_nat (length (framesRef s)))%Z) ds ∧
     count_event is_OnEnd (trace (play P times s))
       = count_event is_OnEnd (trace s) ∧
     ∃ h', rafQueue (play P times s) = [h']) ∧
    (Exists (fun t => (Z.of_nat (length (framesRef s)) ≤ frame_index P m t s)%Z)
       times →
     ∃ ds', ds = ds' ++ [(Z.of_nat (length (framesRef s)) - 1)%Z] ∧
       Sorted Z.lt (0%Z :: ds') ∧
       Forall (fun d => (d < Z.of_nat (length (framesRef s)))%Z) ds' ∧
       count_event is_OnEnd (trace (play P times s))
         = S (count_event is_OnEnd (trace s)) ∧
       rafQueue (play P times s) = [] ∧
       last (trace (play P times s)) = Some OnEnd ∧
       ∀ more, play P more (play P times s) = play P times s).
Proof.
  intros Hloop Hend Hm Hn Hc Hq Hfps Hsorted.
  pose proof (frame_index_sorted P m s _ _ Hfps Hsorted) as Hidx.
  rewrite frame_index_start in Hidx.
  destruct (play_forward P m s times Hloop Hend s 0%Z h)
    as (ds & Hds & Hplaying & Hended); try done; [lia|].
  exists ds. split_and!; try done.
  - destruct (Forall_Exists_dec
                (fun t => (frame_index P m t s < Z.of_nat (length (framesRef s)))%Z)
                (fun t => (Z.of_nat (length (framesRef s)) ≤ frame_index P m t s)%Z)
                (fun t => Z_lt_le_dec _ _) times) as [Hall|Hex].
    + apply Sorted_lt_le. by apply Hplaying.
    + destruct (Hended Hex) as (ds' & -> & Hs & Hf & _).
      change (0%Z :: ds' ++ [(Z.of_nat (length (framesRef s)) - 1)%Z])
        with ((0%Z :: ds') ++ [(Z.of_nat (length (framesRef s)) - 1)%Z]).
      apply Sorted_lt_snoc_le; [done|].
      apply (Sorted_lt_bound ds' 0 _ Hs); [lia|].
      eapply Forall_impl; [exact Hf|]. simpl. intros. lia.
  - intros Hex. destruct (Hended Hex) as (ds' & -> & Hs & Hf & Hcnt & Hrq & Hl).
    exists ds'. split_and!; try done.
    intros more. by apply play_idle.
Qed.

Lemma forward_playback_ends_once_witness :
  ∃ ds,
    drawn (trace (play (demo_props false) [100; 200; 350; 400]%Q (demo_ready false)))
      = drawn (trace (demo_ready false)) ++ map Some ds ∧
    Sorted Z.le (0%Z :: ds).
Proof.
  destruct (forward_playback_ends_once (demo_props false) demo_manifest
              (demo_ready false) 1 [100; 200; 350; 400]%Q)
    as (ds & Hds & Hle & _).
  - reflexivity.
  - reflexivity.
  - reflexivity.
  - vm_compute. lia.
  - reflexivity.
  - reflexivity.
  - vm_compute. discriminate.
  - repeat (constructor; try (vm_compute; discriminate)).
  - exists ds. split; [exact Hds|exact Hle].
Defined.

(** C4 as stated fails: after draws at 0.10 s and 0.25 s, the tick at
    0.35 s, which ends the clip, draws index 2 a second time, so that the
    drawn indices are not strictly increasing. *)
Lemma forward_playback_counterexample :
  loop (demo_props false) = false ∧
  drawn (trace (play (demo_props false) [100; 250; 350]%Q (demo_ready false)))
    = map Some [0; 1; 2; 2]%Z ∧
  ¬ Sorted Z.lt [0; 1; 2; 2]%Z.
Proof.
  split_and!; [reflexivity|reflexivity|].
  intros H.
  apply Sorted_inv in H as [H _]. apply Sorted_inv in H as [H _].
  apply Sorted_inv in H as [_ H]. apply HdRel_inv in H. lia.
Qed.

(** * Teardown *)

Lemma close_all_emits fs s :
  close_all fs s
  = inr (foldl (fun s f => emit (Close f) s) s (releasable fs)).
Proof.
  revert s. induction fs as [|[f|] fs IH]; intros s; simpl; [done| |apply IH].
  destruct f; simpl; apply IH.
Qed.

Lemma emit_all_fields (l : list Frame) s :
  let s' := foldl (fun s f => emit (Close f) s) s l in
  manifestRef s' = manifestRef s ∧ framesRef s' = framesRef s ∧
  audioRef s' = audioRef s ∧ rafRef s' = rafRef s ∧
  isMounted s' = isMounted s ∧ pc s' = pc s ∧
  rafQueue s' = rafQueue s ∧
  trace s' = trace s ++ map Close l.
Proof.
  revert s. induction l as [|f l IH]; intros s; simpl.
  - by rewrite app_nil_r.
  - destruct (IH (emit (Close f) s)) as (-> & -> & -> & -> & -> & -> & -> & ->).
    simpl. by rewrite <- app_assoc.
Qed.

Lemma closed_map_Close (l : list Frame) : closed (map Close l) = l.
Proof. induction l as [|f l IH]; simpl; [done|]. unfold closed in *. simpl. by f_equal. Qed.

(** What the cleanup leaves, as a function of the state it starts from. *)
Lemma cleanup_fields s :
  ∃ s1, cleanup s = inr s1 ∧
    isMounted s1 = false ∧
    framesRef s1 = [] ∧
    manifestRef s1 = manifestRef s ∧
    pc s1 = pc s ∧
    rafRef s1 = rafRef s ∧
    rafQueue s1 =
      match rafRef s with
      | Some h => filter (fun h' => h' ≠ h) (rafQueue s)
      | None => rafQueue s
      end ∧
    audioRef s1 =
      match audioRef s with
      | Some a => Some {| src := src a; ended := ended a; paused := true;
                          currentTime := currentTime a |}
      | None => None
      end ∧
    trace s1 = trace s ++
      match rafRef s with Some h => [CancelFrame h] | None => [] end ++
      match audioRef s with Some _ => [AudioPause] | None => [] end ++
      map Close (releasable (framesRef s)).
Proof.
  unfold cleanup.
  destruct s as [mr fr ar rr st cf cr im p rq nh tr].
  destruct rr as [h|], ar as [a|]; simpl; rewrite close_all_emits;
    (eexists; split; [reflexivity|]);
    match goal with |- context [foldl _ ?s0 ?l] =>
      destruct (emit_all_fields l s0) as (Hm & Hf & Ha & Hr & Hi & Hp & Hq & Ht)
    end;
    simpl in *; rewrite Hm, Ha, Hr, Hp, Hq, Ht;
    split_and!; try done; by rewrite <- ?app_assoc.
Qed.


(** * The setup *)

Lemma loadFrames_inr_full B url m arrivals rs :
  loadFrames B url m arrivals = Some (inr rs) →
  length rs = length (frames m) ∧ Forall is_Some rs.
Proof.
  unfold loadFrames. destruct (truthy_str (zip m)).
  - intros H. injection H as H.
    destruct (fetch_blob B _) as [e|blob]; simpl in H; [done|].
    destruct (zip_entries B blob) as [e|entries]; simpl in H; [done|].
    destruct (zip_loop_inr _ _ _ _ _ H) as (fs' & -> & HF). simpl.
    split.
    + symmetry. by eapply Forall2_length.
    + clear H. induction HF as [|???? (d & bmp & _ & _ & ->)]; constructor; eauto.
  - intros H.
    set (q := map (fun fname => href B fname (base_url B url (basePath m)))
                (frames m)) in *.
    pose proof (run_pool_inv B _ _ arrivals _ (spawn_inv B q)) as Hinv.
    destruct (outcome_inr B _ _ _ Hinv H) as (_ & _ & HF).
    split.
    + apply Forall2_length in HF. unfold q in HF. by rewrite length_map in HF.
    + clear H Hinv. induction HF as [|???? (bmp & _ & ->)]; constructor; eauto.
Qed.

Lemma count_event_snoc f tr e :
  count_event f (tr ++ [e]) = count_event f tr + (if f e then 1 else 0).
Proof.
  rewrite count_event_app. unfold count_event at 2. simpl. by destruct (f e).
Qed.

Lemma setup_catch_fields P err s :
  manifestRef (setup_catch P err s) = manifestRef s ∧
  framesRef (setup_catch P err s) = framesRef s ∧
  rafQueue (setup_catch P err s) = rafQueue s ∧
  pc (setup_catch P err s) = Returned ∧
  count_event is_RequestFrame (trace (setup_catch P err s))
    = count_event is_RequestFrame (trace s) ∧
  drawn (trace (setup_catch P err s)) = drawn (trace s).
Proof.
  unfold setup_catch.
  destruct (isMounted s), (onError P); simpl; split_and!; try done;
    rewrite ?count_event_snoc, ?drawn_app; simpl;
    rewrite ?app_nil_r; try done; lia.
Qed.

Lemma quiet_catch P B err s : quiet s → session_inv P B (setup_catch P err s).
Proof.
  intros (Hf & Hq & Hc & Hd).
  destruct (setup_catch_fields P err s) as (Hm' & Hf' & Hq' & Hp' & Hc' & Hd').
  left. rewrite Hp'. split_and!; try done.
  split_and!; congruence.
Qed.

Lemma loaded_catch P B err s : loaded P B s → session_inv P B (setup_catch P err s).
Proof.
  intros (m & arr & rs & Hj & Hm & Hl & Hf).
  destruct (setup_catch_fields P err s) as (Hm' & Hf' & Hq' & Hp' & Hc' & Hd').
  right. rewrite Hp'. split_and!; try done.
  exists m, arr, rs. split_and!; congruence.
Qed.

Lemma tick_store P now s :
  manifestRef (tick P now s) = manifestRef s ∧
  framesRef (tick P now s) = framesRef s ∧
  pc (tick P now s) = pc s.
Proof.
  destruct (manifestRef s) as [m|] eqn:Hm.
  2: { unfold tick. by rewrite Hm. }
  assert (Hdraw : ∀ i s0, manifestRef (tick_draw i s0) = manifestRef s0 ∧
                          framesRef (tick_draw i s0) = framesRef s0 ∧
                          pc (tick_draw i s0) = pc s0).
  { intros i s0. pose proof (tick_draw_fields i s0). tauto. }
  unfold tick. rewrite Hm.
  destruct (_ <=? _)%Z; [|rewrite <- Hm; apply Hdraw].
  destruct (loop P).
  - destruct (audioRef s) as [a|]; [|rewrite <- Hm; apply Hdraw].
    destruct (ended a); [|rewrite <- Hm; apply Hdraw].
    destruct (Hdraw (js_rem (frame_index P m now s) (Z.of_nat (length (framesRef s))))
                (emit AudioPlay (set_audioRef (Some (restart a)) s)))
      as (-> & -> & ->). done.
  - pose proof (drawFrame_fields
                  (Some (Z.of_nat (length (framesRef s)) - 1)%Z) s)
      as (Hm' & Hf' & _ & Hr' & _ & _ & _ & Hp' & _).
    rewrite Hr'.
    destruct (rafRef s), (onEnd P); simpl; rewrite ?Hm', ?Hf', ?Hp'; done.
Qed.

Lemma session_inv_refresh P B now s :
  session_inv P B s → session_inv P B (refresh P now s).
Proof.
  intros [(Hquiet & H)|((m & arr & rs & Hj & Hm & Hl & Hf) & Hp1 & Hp2)].
  - rewrite refresh_idle; [by left|]. by destruct Hquiet as (_ & ? & _).
  - unfold refresh. destruct (rafQueue s) as [|h q]; [right; split; [|done]|].
    { by exists m, arr, rs. }
    destruct (tick_store P now (set_raf q (nextHandle s) s)) as (Hm' & Hf' & Hp').
    right. rewrite Hp'. split; [|done].
    exists m, arr, rs. rewrite Hm', Hf'. done.
Qed.

Lemma session_inv_manifest P B s :
  session_inv P B s → pc s = AwaitManifest →
  session_inv P B (setup_manifest P B s).
Proof.
  intros [(Hquiet & _)|(_ & Hp & _)] Hpc; [|done].
  unfold setup_manifest.
  destruct (fetch_json B (manifestUrl P)) as [err|m] eqn:Hj;
    [by apply quiet_catch|].
  destruct Hquiet as (Hf & Hq & Hc & Hd).
  destruct (isMounted s); simpl.
  - left. destruct (canvasRef s); simpl; split_and!; try done;
      intros m' Hm'; by simplify_eq.
  - left. split_and!; done.
Qed.

Lemma session_inv_frames P B s m arrivals r :
  session_inv P B s → pc s = AwaitFrames m →
  loadFrames B (manifestUrl P) m arrivals = Some r →
  session_inv P B (setup_frames P B m r s).
Proof.
  intros [(Hquiet & _ & _ & Hm)|(_ & _ & Hp)] Hpc Hload; [|by destruct (Hp m)].
  destruct (Hm m Hpc) as [Hj Hmr].
  unfold setup_frames. destruct r as [err|rs]; [by apply quiet_catch|].
  assert (Hl : loaded P B (set_framesRef rs s)).
  { by exists m, arrivals, rs. }
  simpl. destruct (isMounted s); simpl; right; (split; [|done]).
  - by exists m, arrivals, rs.
  - by exists m, arrivals, rs.
Qed.

Lemma session_inv_canplay P B s :
  session_inv P B s → pc s = AwaitCanPlayThrough →
  session_inv P B (setup_canplay P s).
Proof.
  intros [(_ & Hp & _)|(Hl & _)] Hpc; [done|].
  unfold setup_canplay. destruct (audioRef s) as [a|]; [|by apply loaded_catch].
  right. split; [|done].
  destruct Hl as (m & arr & rs & Hj & Hm & Hld & Hf). by exists m, arr, rs.
Qed.

Lemma session_inv_play P B s r now :
  session_inv P B s → pc s = AwaitPlay →
  session_inv P B (setup_play P r now s).
Proof.
  intros [(_ & _ & Hp & _)|(Hl & _)] Hpc; [done|].
  unfold setup_play. destruct r as [err|[]]; [by apply loaded_catch|].
  destruct Hl as (m & arr & rs & Hj & Hm & Hld & Hf).
  pose proof (drawFrame_fields (Some 0%Z) (set_startTimeRef now s))
    as (Hm' & Hf' & _).
  right. unfold requestAnimationFrame.
  destruct (onReady P); simpl; (split; [|done]);
    exists m, arr, rs; simpl; rewrite ?Hm', ?Hf'; done.
Qed.

Lemma session_inv_step P B s i s' :
  session_inv P B s → i ≠ Unmount → step P B s i = inr s' →
  session_inv P B s'.
Proof.
  intros Hinv Hi Hstep. unfold step in Hstep.
  destruct i as [|arrivals| |r now|now|]; [| | | | |done].
  - destruct (pc s) eqn:Hpc; simplify_eq; try done.
    by apply session_inv_manifest.
  - destruct (pc s) as [|m| | |] eqn:Hpc; simplify_eq; try done.
    destruct (loadFrames B (manifestUrl P) m arrivals) as [r|] eqn:Hl;
      simplify_eq; [|done].
    by eapply session_inv_frames.
  - destruct (pc s) eqn:Hpc; simplify_eq; try done.
    by apply session_inv_canplay.
  - destruct (pc s) eqn:Hpc; simplify_eq; try done.
    by apply session_inv_play.
  - destruct (pc s) eqn:Hpc; simplify_eq; by apply session_inv_refresh.
Qed.

Lemma session_inv_run P B inputs s s' :
  session_inv P B s → Forall (fun i => i ≠ Unmount) inputs →
  run P B inputs s = inr s' → session_inv P B s'.
Proof.
  revert s. induction inputs as [|i rest IH]; intros s Hinv Hall Hrun; simpl in Hrun.
  - by simplify_eq.
  - apply Forall_cons in Hall as [Hi Hall].
    destruct (step P B s i) as [e|s1] eqn:Hstep; simpl in Hrun; [done|].
    eapply IH; [|done|done]. by eapply session_inv_step.
Qed.


(** C6, at the inputs where the code departs from it. The three frames are
    loaded, and the component is unmounted while the audio buffers: the
    cleanup empties the store. When [canplaythrough] fires and [play()] is
    fulfilled, the setup, which reads [isMounted] after neither of these
    awaits, starts the playback all the same: it draws frame 0 and schedules
    a tick with a store that holds none of the three images of the manifest,
    and reports that it is ready; the tick then ends the clip at once. *)
Theorem playback_starts_on_emptied_store :
  ∃ s, run (demo_props false) demo_browser
         [ManifestResponse; FramesSettled [2; 0; 1]; Unmount; CanPlayThrough;
          PlaySettled (inr tt) 0]
         (mount (initial (Some demo_canvas))) = inr s ∧
       manifestRef s = Some demo_manifest ∧
       length (frames demo_manifest) = 3 ∧
       framesRef s = [] ∧
       drawn (trace s) = [Some 0%Z] ∧
       rafQueue s = [1] ∧
       OnReady ∈ trace s ∧
       started s ∧
       ¬ full_store s ∧
       trace (refresh (demo_props false) 100 s)
         = trace s ++ [DrawFrame (Some (-1)%Z); CancelFrame 1; OnEnd].
Proof.
  eexists. split; [vm_compute; reflexivity|].
  split_and!; try (vm_compute; reflexivity).
  - apply list_elem_of_In. vm_compute. tauto.
  - right. vm_compute. discriminate.
  - intros (m & Hm & Hlen & _). vm_compute in Hm. injection Hm as <-.
    vm_compute in Hlen. discriminate.
Qed.

(** C5, at the inputs where the code departs from it. The component is
    unmounted while the three frame requests are outstanding; when they
    complete, the frames are assigned to [framesRef] before [isMounted] is
    read, and no later cleanup of this session closes them. Unmounted while
    the audio buffers instead, the setup still calls [play()] and schedules
    a tick once [canplaythrough] fires, no read of [isMounted] following
    these awaits. *)
Lemma late_frames_reach_the_store :
  (∃ s, run (demo_props false) demo_browser
          [ManifestResponse; Unmount; FramesSettled [2; 0; 1]]
          (mount (initial (Some demo_canvas))) = inr s ∧
        isMounted s = false ∧
        framesRef s = [Some (ImageBitmap "https://cdn.test/img/a.jpg");
                       Some (ImageBitmap "https://cdn.test/img/b.jpg");
                       Some (ImageBitmap "https://cdn.test/img/c.jpg")] ∧
        closed (trace s) = [] ∧
        count_event is_RequestFrame (trace s) = 0 ∧
        count_event is_AudioPlay (trace s) = 0) ∧
  (∃ s, run (demo_props false) demo_browser
          [ManifestResponse; FramesSettled [2; 0; 1]; Unmount; CanPlayThrough;
           PlaySettled (inr tt) 0]
          (mount (initial (Some demo_canvas))) = inr s ∧
        isMounted s = false ∧
        rafQueue s = [1] ∧
        count_event is_AudioPlay (trace s) = 1).
Proof.
  split; eexists; (split; [vm_compute; reflexivity|]); repeat split.
Qed.

(** * Teardown in a session *)








(** * The manifest generator *)

Lemma str_le_iff a b : str_le a b ↔ a = b ∨ OrderedTypeEx.String_as_OT.lt a b.
Proof.
  unfold str_le, String.leb.
  destruct (String.compare a b) eqn:Hc.
  - apply OrderedTypeEx.String_as_OT.cmp_eq in Hc. tauto.
  - apply OrderedTypeEx.String_as_OT.cmp_lt in Hc. tauto.
  - split; [done|]. intros [->|Hlt].
    + assert (String.compare b b = Eq) as Hr.
      { by apply OrderedTypeEx.String_as_OT.cmp_eq. }
      congruence.
    + apply OrderedTypeEx.String_as_OT.cmp_lt in Hlt.
      unfold OrderedTypeEx.String_as_OT.cmp in Hlt. congruence.
Qed.

#[local] Instance str_le_trans : Transitive str_le.
Proof.
  intros a b c Hab Hbc. apply str_le_iff in Hab, Hbc. apply str_le_iff.
  destruct Hab as [->|Hab]; [done|]. destruct Hbc as [<-|Hbc]; [by right|].
  right. by eapply OrderedTypeEx.String_as_OT.lt_trans.
Qed.

#[local] Instance str_le_total : Total str_le.
Proof. intros a b. apply String.leb_total. Qed.

#[local] Instance str_le_antisym : AntiSymm (=) str_le.
Proof. intros a b. apply String.leb_antisym. Qed.

Lemma js_sort_unique (l1 l2 : list string) :
  l1 ≡ₚ l2 → js_sort l1 = js_sort l2.
Proof.
  intros Hp. unfold js_sort.
  apply (Sorted_unique str_le); try apply Sorted_merge_sort; try apply _.
  by rewrite !merge_sort_Permutation.
Qed.

Lemma append_String c a b :
  String.append (String c a) b = String c (String.append a b).
Proof. done. Qed.

Lemma substring_all f : String.substring 0 (String.length f) f = f.
Proof. induction f as [|c f IH]; simpl; [done|]. by f_equal. Qed.

Lemma substring_split k f :
  k ≤ String.length f →
  f = String.append (String.substring 0 k f)
        (String.substring k (String.length f - k) f).
Proof.
  revert k. induction f as [|c f IH]; intros k Hk; simpl in *.
  - by destruct k.
  - destruct k as [|k]; cbn.
    + f_equal. by rewrite substring_all.
    + rewrite append_String. f_equal. apply IH. lia.
Qed.

Lemma length_append a b :
  String.length (String.append a b) = String.length a + String.length b.
Proof.
  induction a as [|c a IH]; [done|]. rewrite append_String. cbn. by rewrite IH.
Qed.

Lemma substring_append_r a b :
  String.substring (String.length a) (String.length b) (String.append a b) = b.
Proof.
  induction a as [|c a IH]; [apply substring_all|].
  rewrite append_String. exact IH.
Qed.

Lemma ends_with_spec suffix f :
  ends_with suffix f = true ↔ ∃ stem, f = String.append stem suffix.
Proof.
  unfold ends_with. rewrite andb_true_iff, Nat.leb_le, String.eqb_eq. split.
  - intros [Hlen Hsub].
    exists (String.substring 0 (String.length f - String.length suffix) f).
    etransitivity;
      [apply (substring_split (String.length f - String.length suffix)); lia|].
    f_equal.
    replace (String.length f - (String.length f - String.length suffix))
      with (String.length suffix) by lia.
    exact Hsub.
  - intros [stem ->]. rewrite length_append. split; [lia|].
    replace (String.length stem + String.length suffix - String.length suffix)
      with (String.length stem) by lia.
    apply substring_append_r.
Qed.

Lemma filter_Permutation_bool {A} (f : A → bool) (l1 l2 : list A) :
  l1 ≡ₚ l2 → List.filter f l1 ≡ₚ List.filter f l2.
Proof.
  induction 1 as [|x l1 l2 _ IH|x y l|l1 l2 l3 _ IH1 _ IH2]; simpl.
  - done.
  - destruct (f x); [by constructor|done].
  - destruct (f x), (f y); try done. apply perm_swap.
  - by etransitivity.
Qed.

Lemma filter_none {A} (f : A → bool) (l : list A) :
  Forall (fun x => f x = false) l → List.filter f l = [].
Proof. induction 1 as [|x l Hx _ IH]; simpl; [done|]. by rewrite Hx. Qed.

(** X11. The manifest lists exactly the [.jpg] names of the directory, each
    as often as it is listed, in ascending order; it names no archive, so
    that the player loads the frames one by one. *)
Theorem buildAvatarAssets_frames listing :
  StronglySorted str_le (frames (buildAvatarAssets listing)) ∧
  frames (buildAvatarAssets listing)
    ≡ₚ List.filter (ends_with ".jpg") listing ∧
  (∀ f, f ∈ frames (buildAvatarAssets listing) ↔
        f ∈ listing ∧ ∃ stem, f = String.append stem ".jpg") ∧
  truthy_str (zip (buildAvatarAssets listing)) = false.
Proof.
  split_and!.
  - apply StronglySorted_merge_sort; apply _.
  - apply merge_sort_Permutation.
  - intros f. simpl. unfold js_sort. rewrite merge_sort_Permutation.
    rewrite list_elem_of_In, List.filter_In, <- list_elem_of_In.
    by rewrite ends_with_spec.
  - done.
Qed.

(** X12. The manifest depends on the [.jpg] names only: the order in which
    the directory is listed, and the files of another kind in it, the
    manifest of an earlier run among them, do not change it. *)
Theorem buildAvatarAssets_stable listing listing' others :
  Forall (fun f => ends_with ".jpg" f = false) others →
  listing' ≡ₚ listing ++ others →
  buildAvatarAssets listing' = buildAvatarAssets listing.
Proof.
  intros Hothers Hperm. unfold buildAvatarAssets. f_equal.
  apply js_sort_unique.
  rewrite (filter_Permutation_bool _ _ _ Hperm), List.filter_app.
  by rewrite (filter_none _ _ Hothers), app_nil_r.
Qed.

Lemma buildAvatarAssets_stable_witness :
  buildAvatarAssets ["0002.jpg"; "manifest.json"; "0001.jpg"]
  = buildAvatarAssets ["0001.jpg"; "0002.jpg"].
Proof.
  apply (buildAvatarAssets_stable _ _ ["manifest.json"]).
  - repeat constructor.
  - simpl. etransitivity; [apply perm_skip, perm_swap|]. apply perm_swap.
Defined.

(** * More on loading *)

Lemma pool_idle_done B q p :
  pool_inv B q (Nat.min MAX_CONCURRENT_REQUESTS (length q)) p →
  rejection p = None → inflight p = [] → pending_work p = 0.
Proof.
  intros Hinv Hrj Hfl.
  pose proof (inv_workers_eq _ _ _ _ Hinv Hrj) as Heq.
  pose proof (inv_queue _ _ _ _ Hinv) as Hq.
  pose proof (inv_index _ _ _ _ Hinv) as Hi.
  unfold pending_work. rewrite Hfl, Hq in *. cbn [length Nat.add] in *.
  destruct (decide (length q = 0)) as [Hz|Hz]; [lia|].
  rewrite (inv_fulfilled _ _ _ _ Hinv); [lia|].
  unfold MAX_CONCURRENT_REQUESTS in Heq. lia.
Qed.

Lemma run_pool_rejection_None B arrivals p :
  rejection (run_pool B arrivals p) = None → rejection p = None.
Proof.
  intros H. destruct (rejection p) as [e|] eqn:Hrj; [|done].
  by rewrite (run_pool_rejection_sticky B arrivals p e Hrj) in H.
Qed.

(** Without a failure every arrival is the answer to a request. *)
Lemma run_pool_pending B q arrivals p :
  pool_inv B q (Nat.min MAX_CONCURRENT_REQUESTS (length q)) p →
  rejection (run_pool B arrivals p) = None →
  length arrivals ≤ pending_work p →
  pending_work (run_pool B arrivals p) + length arrivals = pending_work p.
Proof.
  revert p. induction arrivals as [|k ks IH]; intros p Hinv Hrj Hlen; simpl in *.
  - lia.
  - assert (Hrj0 : rejection p = None).
    { apply (run_pool_rejection_None B (k :: ks)). exact Hrj. }
    destruct (inflight p) as [|x l] eqn:Hfl.
    + pose proof (pool_idle_done B q p Hinv Hrj0 Hfl). lia.
    + pose proof (complete_pending B q _ p k Hinv) as Hp.
      rewrite Hfl in Hp. specialize (Hp ltac:(done)).
      rewrite <- Hp. rewrite <- (IH (complete B p k)); [lia| |done|lia].
      by apply complete_inv.
Qed.

Lemma all_succeed_no_rejection B q arrivals :
  (∀ url, url ∈ q → ∃ bmp, fetchBitmap B url = inr bmp) →
  rejection (run_pool B arrivals (spawn q)) = None.
Proof.
  intros Hall.
  pose proof (run_pool_inv B _ _ arrivals _ (spawn_inv B q)) as Hinv.
  destruct (rejection _) as [e|] eqn:Hrj; [|done].
  destruct (inv_rejection _ _ _ _ Hinv e Hrj) as (url & Hurl & Hfail).
  destruct (Hall _ Hurl) as [bmp Hb]. congruence.
Qed.

(** X2. In individual mode, while fewer answers have arrived than there are
    frames, and none is a failure, [loadFrames] has not returned: it never
    hands out an array that is only partly filled. *)
Theorem loadFrames_pending_until_answered B url m arrivals :
  truthy_str (zip m) = false →
  (∀ fname, fname ∈ frames m →
     ∃ bmp, fetchBitmap B (href B fname (base_url B url (basePath m))) = inr bmp) →
  length arrivals < length (frames m) →
  loadFrames B url m arrivals = None.
Proof.
  intros Hzip Hall Hlen. unfold loadFrames. rewrite Hzip.
  set (q := map (fun fname => href B fname (base_url B url (basePath m)))
              (frames m)).
  assert (Hq : length q = length (frames m)) by apply length_map.
  pose proof (run_pool_inv B _ _ arrivals _ (spawn_inv B q)) as Hinv.
  assert (Hrj : rejection (run_pool B arrivals (spawn q)) = None).
  { apply all_succeed_no_rejection. intros u Hu.
    apply list_elem_of_fmap in Hu as (fname & -> & Hf). by apply Hall. }
  pose proof (run_pool_pending B q arrivals _ (spawn_inv B q) Hrj) as Hp.
  rewrite (spawn_pending B) in Hp. specialize (Hp ltac:(lia)).
  unfold outcome. rewrite Hrj.
  destruct (fulfilled _ =? nworkers _) eqn:Hfw; [|done].
  apply Nat.eqb_eq in Hfw. exfalso.
  pose proof (inv_workers _ _ _ _ Hinv) as Hw.
  pose proof (inv_nworkers _ _ _ _ Hinv) as Hnw.
  assert (Hfl : inflight (run_pool B arrivals (spawn q)) = []).
  { apply length_zero_iff_nil. lia. }
  pose proof (pool_idle_done B q _ Hinv Hrj Hfl). lia.
Qed.

Lemma loadFrames_pending_until_answered_witness :
  loadFrames demo_browser "/img/manifest.json" demo_manifest [1; 0] = None.
Proof.
  apply loadFrames_pending_until_answered.
  - reflexivity.
  - intros fname _. eexists. reflexivity.
  - simpl. lia.
Defined.

(** X15. In every state of the pool, failures included, no two suspended
    workers hold the same index, each awaits the URL of its own index, and
    the requests issued so far are the first [index] URLs of the queue in
    order: no frame is requested twice and none is skipped. *)
Theorem pool_claims_exclusive B q arrivals :
  NoDup (inflight (run_pool B arrivals (spawn q))).*1 ∧
  (∀ i url, (i, url) ∈ inflight (run_pool B arrivals (spawn q)) →
     i < index (run_pool B arrivals (spawn q)) ∧ q !! i = Some url) ∧
  index (run_pool B arrivals (spawn q)) ≤ length q ∧
  fetched (run_pool B arrivals (spawn q))
    = take (index (run_pool B arrivals (spawn q))) q ∧
  length (results (run_pool B arrivals (spawn q))) = length q.
Proof.
  pose proof (run_pool_inv B _ _ arrivals _ (spawn_inv B q)) as Hinv.
  destruct Hinv. split_and!; done.
Qed.

Lemma createBitmap_kind B data bmp :
  createBitmap B data = inr bmp →
  bmp = if has_createImageBitmap B then ImageBitmap data else HTMLImageElement data.
Proof.
  unfold createBitmap.
  destruct (has_createImageBitmap B), (decodes B data); congruence.
Qed.

Lemma loadFrames_kind B url m arrivals rs :
  loadFrames B url m arrivals = Some (inr rs) →
  Forall (fun slot => ∃ data,
            slot = Some (if has_createImageBitmap B
                         then ImageBitmap data else HTMLImageElement data)) rs.
Proof.
  unfold loadFrames. destruct (truthy_str (zip m)).
  - intros H. injection H as H.
    destruct (fetch_blob B _) as [e|blob]; simpl in H; [done|].
    destruct (zip_entries B blob) as [e|entries]; simpl in H; [done|].
    destruct (zip_loop_inr _ _ _ _ _ H) as (fs' & -> & HF). simpl.
    clear H. induction HF as [|???? (d & bmp & _ & Hc & ->)]; constructor; [|done].
    exists d. by rewrite (createBitmap_kind _ _ _ Hc).
  - intros H.
    set (q := map (fun fname => href B fname (base_url B url (basePath m)))
                (frames m)) in *.
    pose proof (run_pool_inv B _ _ arrivals _ (spawn_inv B q)) as Hinv.
    destruct (outcome_inr B _ _ _ Hinv H) as (_ & _ & HF).
    clear H Hinv. induction HF as [|u ??? (bmp & Hb & ->)]; constructor; [|done].
    unfold fetchBitmap in Hb.
    destruct (fetch_blob B u) as [e|d]; simpl in Hb; [done|].
    exists d. by rewrite (createBitmap_kind _ _ _ Hb).
Qed.

Lemma releasable_bitmaps rs :
  Forall (fun slot => ∃ data, slot = Some (ImageBitmap data)) rs →
  rs = map Some (releasable rs).
Proof.
  induction 1 as [|slot rs' (d & ->) _ IH]; [done|].
  unfold releasable in *. simpl. f_equal. exact IH.
Qed.

Lemma releasable_elements rs :
  Forall (fun slot => ∃ data, slot = Some (HTMLImageElement data)) rs →
  releasable rs = [].
Proof.
  induction 1 as [|slot rs' (d & ->) _ IH]; [done|].
  unfold releasable in *. simpl. exact IH.
Qed.

(** X3. What a successful [loadFrames] returned and [framesRef] holds is
    what the cleanup releases: in a browser with [createImageBitmap] every
    one of the frames is an [ImageBitmap] and is closed, once, in order;
    with the image-element fallback nothing is closed, and the cleanup
    completes all the same. *)
Theorem cleanup_closes_loaded B url m arrivals rs s :
  loadFrames B url m arrivals = Some (inr rs) →
  framesRef s = rs →
  ∃ s1, cleanup s = inr s1 ∧
    (has_createImageBitmap B = true →
     ∃ bitmaps, rs = map Some bitmaps ∧
                length bitmaps = length (frames m) ∧
                closed (trace s1) = closed (trace s) ++ bitmaps) ∧
    (has_createImageBitmap B = false →
     closed (trace s1) = closed (trace s)).
Proof.
  intros Hload Hs.
  pose proof (loadFrames_kind _ _ _ _ _ Hload) as Hkind.
  destruct (loadFrames_inr_full _ _ _ _ _ Hload) as [Hlen _].
  destruct (cleanup_fields s) as (s1 & Hc & _ & _ & _ & _ & _ & _ & _ & Ht).
  exists s1. split; [done|].
  assert (Hcl : closed (trace s1) = closed (trace s) ++ releasable rs).
  { rewrite Ht, Hs, !closed_app, closed_map_Close.
    by destruct (rafRef s), (audioRef s). }
  rewrite Hcl. clear Hcl Hc Ht Hs Hload. split; intros Hhas; rewrite Hhas in Hkind.
  - exists (releasable rs).
    pose proof (releasable_bitmaps rs Hkind) as Heq.
    split_and!; [done| |done].
    rewrite <- Hlen. rewrite Heq at 2. by rewrite length_map.
  - rewrite (releasable_elements rs Hkind). by rewrite app_nil_r.
Qed.

Lemma cleanup_closes_loaded_witness :
  ∃ s1, cleanup (demo_ready false) = inr s1 ∧
        length (closed (trace s1)) = 3.
Proof.
  destruct (cleanup_closes_loaded demo_browser "/img/manifest.json"
              demo_manifest [2; 0; 1] (framesRef (demo_ready false))
              (demo_ready false) eq_refl eq_refl)
    as (s1 & Hc & Hbit & _).
  exists s1. split; [exact Hc|].
  destruct (Hbit eq_refl) as (bitmaps & _ & Hlen & Hcl).
  rewrite Hcl, length_app, Hlen. reflexivity.
Defined.

(** * More on the playback clock *)

Lemma tick_clock P now s :
  manifestRef (tick P now s) = manifestRef s ∧
  framesRef (tick P now s) = framesRef s ∧
  startTimeRef (tick P now s) = startTimeRef s.
Proof.
  destruct (tick_store P now s) as (Hm & Hf & _). split_and!; [done|done|].
  destruct (manifestRef s) as [m|] eqn:Hman.
  2: { unfold tick. by rewrite Hman. }
  assert (Hdraw : ∀ i s0, startTimeRef (tick_draw i s0) = startTimeRef s0).
  { intros i s0. pose proof (tick_draw_fields i s0). tauto. }
  unfold tick. rewrite Hman.
  destruct (_ <=? _)%Z; [|apply Hdraw].
  destruct (loop P).
  - destruct (audioRef s) as [a|]; [|apply Hdraw].
    destruct (ended a); [|apply Hdraw]. by rewrite Hdraw.
  - pose proof (drawFrame_fields
                  (Some (Z.of_nat (length (framesRef s)) - 1)%Z) s)
      as (_ & _ & _ & Hr' & Hs' & _).
    rewrite Hr'. destruct (rafRef s), (onEnd P); simpl; by rewrite ?Hs'.
Qed.

Lemma play_clock P times s :
  manifestRef (play P times s) = manifestRef s ∧
  framesRef (play P times s) = framesRef s ∧
  startTimeRef (play P times s) = startTimeRef s.
Proof.
  revert s. induction times as [|t ts IH]; intros s; [done|].
  simpl. destruct (IH (refresh P t s)) as (-> & -> & ->).
  unfold refresh. destruct (rafQueue s) as [|h q]; [done|].
  apply (tick_clock P t (set_raf q (nextHandle s) s)).
Qed.

(** X14. The index a tick settles on is a function of the time at which it
    runs, of the start time, of the rate and of the frame count, and of
    nothing else: whatever ticks ran, were late or were skipped before it,
    the tick at [now] records [floor(elapsed * fps)], wrapped under loop.
    The ticks themselves never change the store, the manifest or the start
    time. *)
Theorem frame_depends_on_time_only P m s times now :
  manifestRef s = Some m →
  (frame_index P m now s < Z.of_nat (length (framesRef s)))%Z ∨
  (loop P = true ∧ 0 < length (framesRef s)) →
  currentFrameRef (tick P now (play P times s)) = Some (settled_index P m now s) ∧
  manifestRef (play P times s) = manifestRef s ∧
  framesRef (play P times s) = framesRef s ∧
  startTimeRef (play P times s) = startTimeRef s.
Proof.
  intros Hm Hcase.
  destruct (play_clock P times s) as (Hm' & Hf' & Hs').
  split_and!; try done.
  assert (Hm2 : manifestRef (play P times s) = Some m) by congruence.
  assert (Hix : frame_index P m now (play P times s) = frame_index P m now s).
  { by apply frame_index_ext. }
  pose proof (tick_goes_on P now (play P times s) m Hm2) as Hgo. simpl in Hgo.
  rewrite Hix, Hf' in Hgo.
  specialize (Hgo ltac:(destruct Hcase as [?|[? ?]]; [by left|right; split; [done|lia]])).
  destruct (tick_step P now _ m _ Hm2 Hgo) as (_ & _ & _ & _ & Hc & _).
  exact Hc.
Qed.

Lemma frame_depends_on_time_only_witness :
  currentFrameRef
    (tick (demo_props true) 470
       (play (demo_props true) [20; 390; 100]%Q (demo_ready true)))
  = Some 1%Z.
Proof.
  refine (proj1 (frame_depends_on_time_only (demo_props true) demo_manifest
                   (demo_ready true) [20; 390; 100]%Q 470 eq_refl _)).
  right. split; [reflexivity|]. vm_compute. lia.
Defined.

(** With [loop] and an empty store the wrapped index is [NaN]. *)
Lemma tick_nan_fields P now s m :
  manifestRef s = Some m →
  framesRef s = [] →
  loop P = true →
  (0 ≤ frame_index P m now s)%Z →
  manifestRef (tick P now s) = Some m ∧
  framesRef (tick P now s) = [] ∧
  startTimeRef (tick P now s) = startTimeRef s ∧
  canvasRef (tick P now s) = canvasRef s ∧
  currentFrameRef (tick P now s) = None ∧
  rafQueue (tick P now s) = rafQueue s ++ [nextHandle s] ∧
  drawn (trace (tick P now s)) = drawn (trace s) ++ [None] ∧
  count_event is_OnEnd (trace (tick P now s)) = count_event is_OnEnd (trace s).
Proof.
  intros Hm Hf Hloop Hidx.
  assert (Hdraw : ∀ s0, framesRef s0 = [] →
            tick_draw None s0 =
            set_rafRef (Some (nextHandle s0))
              (emit (RequestFrame (nextHandle s0))
                 (set_raf (rafQueue s0 ++ [nextHandle s0]) (S (nextHandle s0))
                    (emit (DrawFrame None) (set_currentFrameRef None s0))))).
  { intros s0 Hf0. unfold tick_draw. cbn [js_neq].
    rewrite drawFrame_noop; [done|]. right. done. }
  unfold tick. rewrite Hm, Hloop, Hf.
  change (Z.of_nat (length [])) with 0%Z.
  apply Z.leb_le in Hidx. rewrite Hidx.
  change (js_rem (frame_index P m now s) 0) with (@None Z).
  destruct (audioRef s) as [a|]; [destruct (ended a)|]; rewrite Hdraw by done;
    cbn; rewrite ?Hm, ?Hf, ?drawn_app, ?count_event_snoc; cbn;
    rewrite ?app_nil_r, ?Nat.add_0_r.
  all: split_and!; try done.
  all: rewrite !List.filter_app, !length_app; simpl; unfold count_event; lia.
Qed.

(** X1. With [loop] and an empty frame store the playback neither shows
    anything nor ends: every tick computes [NaN], calls [drawFrame(NaN)],
    which paints nothing, and schedules the next tick; [onEnd] is never
    called. *)
Theorem loop_on_empty_store P m times :
  loop P = true →
  (0 <= effective_fps P m)%Q →
  ∀ s h,
    manifestRef s = Some m →
    framesRef s = [] →
    rafQueue s = [h] →
    Forall (fun t => (startTimeRef s <= t)%Q) times →
    drawn (trace (play P times s))
      = drawn (trace s) ++ replicate (length times) None ∧
    canvasRef (play P times s) = canvasRef s ∧
    count_event is_OnEnd (trace (play P times s))
      = count_event is_OnEnd (trace s) ∧
    ∃ h', rafQueue (play P times s) = [h'].
Proof.
  intros Hloop Hfps.
  induction times as [|t ts IH]; intros s h Hm Hf Hq Hall.
  - simpl. rewrite app_nil_r. eauto.
  - apply Forall_cons in Hall as [Ht Hall].
    simpl. rewrite (refresh_pop _ _ _ _ _ Hq).
    set (s1 := set_raf [] (nextHandle s) s).
    assert (Hidx : (0 ≤ frame_index P m t s1)%Z).
    { by apply frame_index_nonneg. }
    destruct (tick_nan_fields P t s1 m Hm Hf Hloop Hidx)
      as (Hm2 & Hf2 & Hs2 & Hc2 & _ & Hq2 & Hd2 & He2).
    destruct (IH (tick P t s1) (nextHandle s) Hm2 Hf2 Hq2)
      as (Hd & Hc & He & Hh).
    { by rewrite Hs2. }
    rewrite Hd, Hc, He, Hd2, Hc2, He2, <- app_assoc. done.
Qed.

(** The setup does not read [loop]: [empty_ready] is also the state in which
    it leaves the looping session with no frames. *)
Lemma loop_on_empty_store_witness :
  drawn (trace (play (demo_props true) [40; 80; 120]%Q empty_ready))
  = drawn (trace empty_ready) ++ replicate 3 None.
Proof.
  refine (proj1 (loop_on_empty_store (demo_props true) empty_manifest
                   [40; 80; 120]%Q eq_refl _ empty_ready 1
                   eq_refl eq_refl eq_refl _)).
  - vm_compute. discriminate.
  - repeat constructor; vm_compute; discriminate.
Defined.

(** * What a session reports *)

Lemma silent_events evs :
  Forall (fun e => is_outcome e = false) evs →
  count_event is_outcome evs = 0 ∧ count_event is_error_report evs = 0 ∧
  OnReady ∉ evs.
Proof.
  induction 1 as [|e evs He _ (IH1 & IH2 & IH3)].
  - split_and!; [done|done|]. apply not_elem_of_nil.
  - unfold count_event in *. simpl. rewrite He.
    split_and!; [done| |].
    + destruct e; simpl in *; try done.
    + intros Hin. apply elem_of_cons in Hin as [Heq|Hin]; [by subst|by apply IH3].
Qed.

Lemma silent_step s s' evs :
  trace s' = trace s ++ evs →
  Forall (fun e => is_outcome e = false) evs →
  pc s' = pc s →
  (isMounted s = false → isMounted s' = false) →
  step_report s s' evs.
Proof.
  intros Ht Hsil Hpc Hmt.
  destruct (silent_events evs Hsil) as (H1 & H2 & H3).
  unfold step_report. rewrite H1, H2, Hpc.
  split_and!; try done; try lia. by left.
Qed.

Lemma tick_events P now s :
  ∃ evs, trace (tick P now s) = trace s ++ evs ∧
         Forall (fun e => is_tick_event e = true) evs ∧
         isMounted (tick P now s) = isMounted s.
Proof.
  destruct (manifestRef s) as [m|] eqn:Hm.
  2: { exists []. unfold tick. rewrite Hm, app_nil_r. by split_and!. }
  assert (Hdraw : ∀ i s0, ∃ evs, trace (tick_draw i s0) = trace s0 ++ evs ∧
            Forall (fun e => is_tick_event e = true) evs ∧
            isMounted (tick_draw i s0) = isMounted s0).
  { intros i s0.
    destruct (tick_draw_fields i s0) as (_ & _ & _ & _ & Hi & _ & _ & _ & _ & _ & Ht).
    eexists. split_and!; [exact Ht| |exact Hi].
    destruct (js_neq i (currentFrameRef s0)); repeat constructor. }
  unfold tick. rewrite Hm.
  destruct (_ <=? _)%Z eqn:Hle; [|apply Hdraw].
  destruct (loop P) eqn:Hloop.
  - destruct (audioRef s) as [a|]; [|apply Hdraw].
    destruct (ended a); [|apply Hdraw].
    destruct (Hdraw (js_rem (frame_index P m now s) (Z.of_nat (length (framesRef s))))
                (emit AudioPlay (set_audioRef (Some (restart a)) s)))
      as (evs & Ht & Hev & Hi).
    exists (AudioPlay :: evs). rewrite Ht, Hi. simpl. rewrite <- app_assoc.
    split_and!; [done| |done]. by constructor.
  - pose proof (drawFrame_fields
                  (Some (Z.of_nat (length (framesRef s)) - 1)%Z) s)
      as (_ & _ & _ & Hr & _ & _ & Hi & _ & _ & _ & Ht).
    rewrite Hr.
    destruct (rafRef s), (onEnd P); simpl; rewrite ?Hi, ?Ht;
      eexists; (split_and!; [by rewrite <- ?app_assoc| |done]);
      repeat constructor.
Qed.

Lemma tick_event_silent e : is_tick_event e = true → is_outcome e = false.
Proof. by destruct e. Qed.

Lemma refresh_report P now s : ∃ evs, step_report s (refresh P now s) evs.
Proof.
  unfold refresh. destruct (rafQueue s) as [|h q] eqn:Hq.
  - exists []. apply silent_step; [by rewrite app_nil_r|done|done|done].
  - destruct (tick_events P now (set_raf q (nextHandle s) s)) as (evs & Ht & Hev & Hi).
    destruct (tick_store P now (set_raf q (nextHandle s) s)) as (_ & _ & Hp).
    exists evs. apply silent_step; try done.
    + eapply Forall_impl; [exact Hev|]. apply tick_event_silent.
    + intros Hm. by rewrite Hi.
Qed.

Lemma cleanup_report s s' : cleanup s = inr s' → ∃ evs, step_report s s' evs.
Proof.
  intros Hc.
  destruct (cleanup_fields s) as (s1 & Hc1 & Hi & _ & _ & Hp & _ & _ & _ & Ht).
  assert (s1 = s') as -> by congruence.
  eexists. apply silent_step; [exact Ht| |done|done].
  apply Forall_app. split; [destruct (rafRef s); repeat constructor|].
  apply Forall_app. split; [destruct (audioRef s); repeat constructor|].
  apply Forall_forall. intros e He. apply list_elem_of_In in He.
  apply List.in_map_iff in He as (f & <- & _). done.
Qed.

Lemma report_events P s err :
  count_event is_outcome (report P s err) ≤ 1 ∧
  (count_event is_error_report (report P s err) ≠ 0 → isMounted s = true) ∧
  (OnReady ∉ report P s err) ∧ (AudioPlay ∉ report P s err).
Proof.
  unfold report.
  destruct (isMounted s), (onError P); unfold count_event; simpl;
    split_and!; try done; try lia;
    intros H; repeat (apply elem_of_cons in H as [H|H]; [done|]);
    by apply elem_of_nil in H.
Qed.

Lemma setup_catch_report P err s :
  pc s ≠ Returned → step_report s (setup_catch P err s) (report P s err).
Proof.
  intros Hpc. destruct (report_events P s err) as (H1 & H2 & H3 & H4).
  unfold step_report. split_and!; try done.
  all: unfold setup_catch, report;
    destruct (isMounted s) eqn:?, (onError P); simpl; rewrite ?app_nil_r;
    try done.
Qed.

Ltac report_auto :=
  unfold step_report, count_event; simpl; rewrite ?app_nil_r;
  split_and!; try done; try lia;
  try (intros H; repeat (apply elem_of_cons in H as [H|H]; [done|]);
       by apply elem_of_nil in H);
  try (intros _; right; repeat constructor).

Lemma setup_manifest_report P B s :
  pc s = AwaitManifest → ∃ evs, step_report s (setup_manifest P B s) evs.
Proof.
  intros Hpc. unfold setup_manifest.
  destruct (fetch_json B (manifestUrl P)) as [err|m].
  - eexists. apply setup_catch_report. by rewrite Hpc.
  - exists []. destruct s as [mr fr ar rr st cf cr im p rq nh tr].
    simpl in *. subst p. destruct im; simpl; [destruct cr|]; report_auto.
Qed.

Lemma setup_frames_report P B m r s :
  pc s = AwaitFrames m → ∃ evs, step_report s (setup_frames P B m r s) evs.
Proof.
  intros Hpc. unfold setup_frames. destruct r as [err|rs].
  - eexists. apply setup_catch_report. by rewrite Hpc.
  - destruct s as [mr fr ar rr st cf cr im p rq nh tr].
    simpl in *. subst p. destruct im; simpl.
    + exists [AudioLoad]. report_auto.
    + exists []. report_auto.
Qed.

Lemma setup_canplay_report P s :
  pc s = AwaitCanPlayThrough → ∃ evs, step_report s (setup_canplay P s) evs.
Proof.
  intros Hpc. unfold setup_canplay. destruct (audioRef s) as [a|] eqn:Ha.
  - exists [AudioPlay]. destruct s as [mr fr ar rr st cf cr im p rq nh tr].
    simpl in *. subst p. report_auto.
  - eexists. apply setup_catch_report. by rewrite Hpc.
Qed.

Lemma setup_play_report P r now s :
  pc s = AwaitPlay → ∃ evs, step_report s (setup_play P r now s) evs.
Proof.
  intros Hpc. unfold setup_play. destruct r as [err|[]].
  - eexists. apply setup_catch_report. by rewrite Hpc.
  - pose proof (drawFrame_fields (Some 0%Z) (set_startTimeRef now s))
      as (_ & _ & _ & _ & _ & _ & Hi & _ & Hq & Hn & Ht).
    unfold requestAnimationFrame.
    exists ([DrawFrame (Some 0%Z); RequestFrame (nextHandle s); SetReady]
            ++ if onReady P then [OnReady] else []).
    unfold step_report.
    destruct (onReady P); simpl; rewrite ?Hi, ?Hn, ?Ht, ?Hpc; simpl;
      rewrite <- ?app_assoc; simpl; unfold count_event; simpl;
      split_and!; try done; try lia;
      intros H; repeat (apply elem_of_cons in H as [H|H]; [done|]);
      by apply elem_of_nil in H.
Qed.

Lemma step_has_report P B s i s' :
  step P B s i = inr s' → ∃ evs, step_report s s' evs.
Proof.
  intros Hstep.
  assert (Hsame : ∃ evs, step_report s s evs).
  { exists []. apply silent_step; [by rewrite app_nil_r|done|done|done]. }
  unfold step in Hstep.
  destruct i as [|arrivals| |r now|now|].
  - destruct (pc s) eqn:Hpc; simplify_eq; try done.
    by apply setup_manifest_report.
  - destruct (pc s) as [|m| | |] eqn:Hpc; simplify_eq; try done.
    destruct (loadFrames B (manifestUrl P) m arrivals) as [r|];
      simplify_eq; [|done].
    by apply setup_frames_report.
  - destruct (pc s) eqn:Hpc; simplify_eq; try done.
    by apply setup_canplay_report.
  - destruct (pc s) eqn:Hpc; simplify_eq; try done.
    by apply setup_play_report.
  - assert (s' = refresh P now s) as -> by (by destruct (pc s); simplify_eq).
    apply refresh_report.
  - apply cleanup_report. by destruct (pc s).
Qed.

(** X4. A session reports one outcome at most: over any sequence of inputs,
    unmounting included, [onReady], [onError] and [console.error] together
    are called once or not at all, so that a setup never reports both
    success and failure, nor either of them twice. *)
Theorem session_reports_once P B canvas inputs s :
  run P B inputs (mount (initial canvas)) = inr s →
  count_event is_outcome (trace s) ≤ 1.
Proof.
  assert (Hgen : ∀ inputs s0 s,
            count_event is_outcome (trace s0) ≤ 1 →
            (pc s0 ≠ Returned → count_event is_outcome (trace s0) = 0) →
            run P B inputs s0 = inr s →
            count_event is_outcome (trace s) ≤ 1).
  { clear. induction inputs as [|i rest IH]; intros s0 s Hle Hz Hrun;
      simpl in Hrun.
    - by simplify_eq.
    - destruct (step P B s0 i) as [e|s1] eqn:Hstep; simpl in Hrun; [done|].
      destruct (step_has_report P B s0 i s1 Hstep)
        as (evs & Ht & H1 & H2 & H3 & _).
      apply (IH s1 s); [| |done]; rewrite Ht, count_event_app.
      + destruct (decide (count_event is_outcome evs = 0)) as [->|Hne]; [lia|].
        destruct (H2 Hne) as [Hp _]. rewrite (Hz Hp). lia.
      + intros Hp.
        destruct (decide (count_event is_outcome evs = 0)) as [Hev|Hne].
        * rewrite Hev, Hz; [done|]. intros Hr. by apply Hp, H3.
        * by destruct (H2 Hne) as [_ Hp']. }
  intros Hrun. apply (Hgen inputs (mount (initial canvas)) s); [| |done].
  - unfold count_event. simpl. lia.
  - done.
Qed.

Lemma session_reports_once_witness :
  count_event is_outcome (trace flaky_session) ≤ 1.
Proof.
  apply (session_reports_once (demo_props false) flaky_browser
           (Some demo_canvas)
           [ManifestResponse; FramesSettled [0; 1; 2]; Refresh 100]).
  vm_compute. reflexivity.
Defined.

(** X5. Once the cleanup has run, the setup reports no error any more:
    whatever fails afterwards, neither [onError] nor [console.error] is
    called, and the session stays unmounted. *)
Theorem no_error_report_after_cleanup P B s0 s1 inputs s :
  cleanup s0 = inr s1 →
  run P B inputs s1 = inr s →
  count_event is_error_report (trace s)
    = count_event is_error_report (trace s0) ∧
  isMounted s = false.
Proof.
  intros Hc Hrun.
  assert (Hgen : ∀ inputs s1 s,
            isMounted s1 = false → run P B inputs s1 = inr s →
            count_event is_error_report (trace s)
              = count_event is_error_report (trace s1) ∧
            isMounted s = false).
  { clear. induction inputs as [|i rest IH]; intros s1 s Hm Hrun;
      simpl in Hrun.
    - by simplify_eq.
    - destruct (step P B s1 i) as [e|s2] eqn:Hstep; simpl in Hrun; [done|].
      destruct (step_has_report P B s1 i s2 Hstep)
        as (evs & Ht & _ & _ & _ & H4 & H5 & _).
      destruct (IH s2 s (H5 Hm) Hrun) as [-> Hm'].
      split; [|done]. rewrite Ht, count_event_app.
      destruct (decide (count_event is_error_report evs = 0)) as [->|Hne];
        [lia|].
      specialize (H4 Hne). congruence. }
  destruct (cleanup_report s0 s1 Hc) as (evs & Ht & _ & _ & _ & H4 & _).
  destruct (cleanup_fields s0) as (s1' & Hc' & Hi & _).
  assert (s1' = s1) as -> by congruence.
  destruct (Hgen inputs s1 s Hi Hrun) as [-> Hm]. split; [|done].
  rewrite Ht, count_event_app.
  destruct (silent_events evs) as (_ & -> & _); [|lia].
  destruct (cleanup_fields s0) as (s1' & Hc'' & _ & _ & _ & _ & _ & _ & _ & Ht').
  assert (s1' = s1) as -> by congruence.
  rewrite Ht in Ht'. apply app_inv_head in Ht'. rewrite Ht'.
  apply Forall_app. split; [destruct (rafRef s0); repeat constructor|].
  apply Forall_app. split; [destruct (audioRef s0); repeat constructor|].
  apply Forall_forall. intros e He. apply list_elem_of_In in He.
  apply List.in_map_iff in He as (f & <- & _). done.
Qed.

(** X6. [onReady] is called only at the end of a setup that went through:
    right after [drawFrame(0)], the request of the first tick and
    [setReady(true)], and after [play()] was called on the audio element. *)
Theorem ready_follows_first_frame P B canvas inputs s :
  run P B inputs (mount (initial canvas)) = inr s →
  OnReady ∈ trace s →
  ∃ before h after,
    trace s = before ++
              [DrawFrame (Some 0%Z); RequestFrame h; SetReady; OnReady] ++ after ∧
    AudioPlay ∈ before.
Proof.
  assert (Hgen : ∀ inputs s0 s,
            (pc s0 = AwaitPlay → AudioPlay ∈ trace s0) →
            (OnReady ∈ trace s0 →
             ∃ before h after,
               trace s0 = before ++
                 [DrawFrame (Some 0%Z); RequestFrame h; SetReady; OnReady] ++ after ∧
               AudioPlay ∈ before) →
            run P B inputs s0 = inr s →
            OnReady ∈ trace s →
            ∃ before h after,
              trace s = before ++
                [DrawFrame (Some 0%Z); RequestFrame h; SetReady; OnReady] ++ after ∧
              AudioPlay ∈ before).
  { clear. induction inputs as [|i rest IH]; intros s0 s Hplay Hready Hrun;
      simpl in Hrun.
    - by simplify_eq.
    - destruct (step P B s0 i) as [e|s1] eqn:Hstep; simpl in Hrun; [done|].
      destruct (step_has_report P B s0 i s1 Hstep)
        as (evs & Ht & _ & _ & _ & _ & _ & H6 & H7).
      apply (IH s1 s); [| |done]; rewrite Ht.
      + intros Hp. apply elem_of_app.
        destruct (H7 Hp) as [Hp0|Hin]; [left; by apply Hplay|by right].
      + intros Hin. apply elem_of_app in Hin as [Hin|Hin].
        * destruct (Hready Hin) as (before & h & after & -> & Ha).
          exists before, h, (after ++ evs). split; [|done].
          by rewrite <- !app_assoc.
        * destruct (H6 Hin) as [Hp ->].
          exists (trace s0), (nextHandle s0), []. split; [done|].
          by apply Hplay. }
  intros Hrun. apply (Hgen inputs (mount (initial canvas)) s); try done.
  intros Hin. by apply elem_of_nil in Hin.
Qed.

Lemma ready_follows_first_frame_witness :
  ∃ before h after,
    trace (demo_ready false)
      = before ++ [DrawFrame (Some 0%Z); RequestFrame h; SetReady; OnReady] ++ after ∧
    AudioPlay ∈ before.
Proof.
  apply (ready_follows_first_frame (demo_props false) demo_browser
           (Some demo_canvas)
           [ManifestResponse; FramesSettled [2; 0; 1]; CanPlayThrough;
            PlaySettled (inr tt) 0]).
  - vm_compute. reflexivity.
  - vm_compute. repeat (first [apply list_elem_of_here | apply list_elem_of_further]).
Defined.

Lemma no_error_report_after_cleanup_witness :
  count_event is_error_report (trace flaky_late)
  = count_event is_error_report (trace flaky_loading).
Proof.
  refine (proj1 (no_error_report_after_cleanup (demo_props false) flaky_browser
                   flaky_loading flaky_unmounted [FramesSettled [0; 1; 2]]
                   flaky_late _ _)).
  - vm_compute. reflexivity.
  - vm_compute. reflexivity.
Defined.

(** * Sessions that are torn down *)










(** * The canvas *)

Lemma drawFrame_size i s : canvas_size (drawFrame i s) = canvas_size s.
Proof.
  destruct s as [mr fr ar rr st cf cr im p rq nh tr].
  unfold drawFrame, canvas_size. simpl.
  destruct cr as [c|]; [|done].
  by destruct (js_get fr i).
Qed.

Lemma tick_draw_size i s : canvas_size (tick_draw i s) = canvas_size s.
Proof.
  unfold tick_draw. destruct (js_neq i (currentFrameRef s)).
  - pose proof (drawFrame_size i (set_currentFrameRef i s)) as H.
    unfold canvas_size, requestAnimationFrame in *. simpl. exact H.
  - done.
Qed.

Lemma tick_size P now s : canvas_size (tick P now s) = canvas_size s.
Proof.
  unfold tick. destruct (manifestRef s) as [m|]; [|done].
  destruct (_ <=? _)%Z; [|apply tick_draw_size].
  destruct (loop P).
  - destruct (audioRef s) as [a|]; [|apply tick_draw_size].
    destruct (ended a); [|apply tick_draw_size]. by rewrite tick_draw_size.
  - pose proof (drawFrame_size (Some (Z.of_nat (length (framesRef s)) - 1)%Z) s) as H.
    pose proof (drawFrame_fields (Some (Z.of_nat (length (framesRef s)) - 1)%Z) s)
      as (_ & _ & _ & Hr & _).
    rewrite Hr. destruct (rafRef s), (onEnd P); exact H.
Qed.

Lemma emit_all_canvas (l : list Frame) s :
  canvasRef (foldl (fun s f => emit (Close f) s) s l) = canvasRef s.
Proof.
  revert s. induction l as [|f l IH]; intros s; simpl; [done|]. by rewrite IH.
Qed.

Lemma cleanup_size s s' : cleanup s = inr s' → canvas_size s' = canvas_size s.
Proof.
  destruct s as [mr fr ar rr st cf cr im p rq nh tr].
  unfold cleanup. rewrite close_all_emits. intros H. injection H as <-.
  unfold canvas_size. simpl. rewrite emit_all_canvas.
  by destruct rr, ar.
Qed.

(** A step of the session leaves the canvas as it is, but for the sizing
    that follows the manifest; it never creates one. *)
Lemma step_canvas P B s i s' :
  step P B s i = inr s' →
  (canvasRef s = None → canvasRef s' = None) ∧
  (pc s ≠ AwaitManifest →
   pc s' ≠ AwaitManifest ∧ canvas_size s' = canvas_size s).
Proof.
  intros Hstep.
  assert (Hnone : ∀ s1 s2, canvas_size s2 = canvas_size s1 →
            canvasRef s1 = None → canvasRef s2 = None).
  { intros s1 s2 H Hc. unfold canvas_size in H. rewrite Hc in H.
    by destruct (canvasRef s2). }
  assert (Hcatch : ∀ err s0, canvas_size (setup_catch P err s0) = canvas_size s0
                             ∧ pc (setup_catch P err s0) = Returned).
  { intros err s0. unfold setup_catch.
    by destruct (isMounted s0), (onError P). }
  unfold step in Hstep.
  destruct i as [|arrivals| |r now|now|].
  - destruct (pc s) eqn:Hpc; simplify_eq;
      try (split; [done|intros Hne; split; [congruence|done]]).
    split; [|done]. intros Hc. unfold setup_manifest.
    destruct (fetch_json B (manifestUrl P)).
    + eapply Hnone; [|exact Hc]. apply Hcatch.
    + destruct (isMounted s); simpl; [by rewrite Hc|done].
  - destruct (pc s) as [|m| | |] eqn:Hpc; simplify_eq;
      try (split; [done|intros Hne; split; [congruence|done]]).
    destruct (loadFrames B (manifestUrl P) m arrivals) as [r|];
      simplify_eq;
      [|split; [done|intros Hne; split; [congruence|done]]].
    assert (Hsz : canvas_size (setup_frames P B m r s) = canvas_size s
                  ∧ pc (setup_frames P B m r s) ≠ AwaitManifest).
    { unfold setup_frames. destruct r; [destruct (Hcatch e s); split; congruence|].
      simpl. by destruct (isMounted s). }
    destruct Hsz as [Hsz Hp]. split; [by apply Hnone|done].
  - destruct (pc s) eqn:Hpc; simplify_eq;
      try (split; [done|intros Hne; split; [congruence|done]]).
    assert (Hsz : canvas_size (setup_canplay P s) = canvas_size s
                  ∧ pc (setup_canplay P s) ≠ AwaitManifest).
    { unfold setup_canplay.
      destruct (audioRef s); [done|destruct (Hcatch (TypeError "audioRef.current is null") s); split; congruence]. }
    destruct Hsz as [Hsz Hp]. split; [by apply Hnone|done].
  - destruct (pc s) eqn:Hpc; simplify_eq;
      try (split; [done|intros Hne; split; [congruence|done]]).
    assert (Hsz : canvas_size (setup_play P r now s) = canvas_size s
                  ∧ pc (setup_play P r now s) ≠ AwaitManifest).
    { unfold setup_play.
      destruct r as [err|[]]; [destruct (Hcatch err s); split; congruence|].
      pose proof (drawFrame_size (Some 0%Z) (set_startTimeRef now s)) as H.
      unfold requestAnimationFrame, canvas_size in *.
      destruct (onReady P); simpl; by rewrite H. }
    destruct Hsz as [Hsz Hp]. split; [by apply Hnone|done].
  - assert (s' = refresh P now s) as -> by (by destruct (pc s); simplify_eq).
    assert (Hsz : canvas_size (refresh P now s) = canvas_size s
                  ∧ pc (refresh P now s) = pc s).
    { unfold refresh. destruct (rafQueue s) as [|h q]; [done|].
      split; [apply (tick_size P now (set_raf q (nextHandle s) s))|].
      apply (tick_store P now (set_raf q (nextHandle s) s)). }
    destruct Hsz as [Hsz Hp]. split; [by apply Hnone|]. by rewrite Hp.
  - assert (Hc : cleanup s = inr s') by (by destruct (pc s)).
    destruct (cleanup_fields s) as (s1 & Hc1 & _ & _ & _ & Hp & _).
    assert (s1 = s') as -> by congruence.
    pose proof (cleanup_size s s' Hc) as Hsz.
    split; [by apply Hnone|]. by rewrite Hp.
Qed.

(** X7. Until the start button is clicked the component has no canvas: no
    step of the effect creates one, so that the [drawFrame(0)] of the setup
    and the draws of the ticks all return without painting. *)
Theorem no_canvas_before_click P B inputs s :
  run P B inputs (mount (initial None)) = inr s →
  canvasRef s = None.
Proof.
  assert (Hgen : ∀ inputs s0 s,
            canvasRef s0 = None → run P B inputs s0 = inr s → canvasRef s = None).
  { clear. induction inputs as [|i rest IH]; intros s0 s Hc Hrun; simpl in Hrun.
    - by simplify_eq.
    - destruct (step P B s0 i) as [e|s1] eqn:Hstep; simpl in Hrun; [done|].
      destruct (step_canvas P B s0 i s1 Hstep) as [Hnone _].
      by apply (IH s1 s (Hnone Hc)). }
  by apply Hgen.
Qed.

Lemma no_canvas_before_click_witness :
  canvasRef flaky_loading = None.
Proof.
  apply (no_canvas_before_click (demo_props false) flaky_browser
           [ManifestResponse]).
  vm_compute. reflexivity.
Defined.

(** What a click on the start button does, [play()] succeeding, while the
    button is displayed. *)
Lemma handleStart_fields now s :
  canvasRef s = None →
  manifestRef (handleStart now s) = manifestRef s ∧
  framesRef (handleStart now s) = framesRef s ∧
  currentFrameRef (handleStart now s) = currentFrameRef s ∧
  isMounted (handleStart now s) = isMounted s ∧
  pc (handleStart now s) = pc s ∧
  startTimeRef (handleStart now s) = now ∧
  rafRef (handleStart now s) = Some (nextHandle s) ∧
  rafQueue (handleStart now s) = rafQueue s ++ [nextHandle s] ∧
  nextHandle (handleStart now s) = S (nextHandle s) ∧
  canvasRef (handleStart now s) = Some fresh_canvas ∧
  trace (handleStart now s)
    = trace s ++ match audioRef s with Some _ => [AudioPlay] | None => [] end
              ++ [RequestFrame (nextHandle s)].
Proof.
  intros Hc. destruct s as [mr fr ar rr st cf cr im p rq nh tr].
  simpl in Hc. subst cr.
  unfold handleStart, handleStart_click, handleStart_resume. simpl.
  destruct ar as [a|]; simpl; split_and!; try done.
  by rewrite <- app_assoc.
Qed.

Lemma run_size P B inputs s s' :
  pc s ≠ AwaitManifest → run P B inputs s = inr s' →
  canvas_size s' = canvas_size s.
Proof.
  revert s. induction inputs as [|i rest IH]; intros s Hpc Hrun; simpl in Hrun.
  - by simplify_eq.
  - destruct (step P B s i) as [e|s1] eqn:Hstep; simpl in Hrun; [done|].
    destruct (step_canvas P B s i s1 Hstep) as [_ Hsz].
    destruct (Hsz Hpc) as [Hpc1 <-]. by apply IH.
Qed.

Lemma set_dimension_floor default (v : Q) :
  (0 <= v)%Q → (v < 2147483648)%Q → set_dimension default v = Qfloor v.
Proof.
  intros H0 H1. unfold set_dimension, to_unsigned_long.
  assert (Hf0 : (0 ≤ Qfloor v)%Z).
  { rewrite <- (Qfloor_Z 0). by apply Qfloor_resp_le. }
  assert (Hf1 : (Qfloor v < 2147483648)%Z).
  { rewrite Zlt_Qlt. eapply Qle_lt_trans; [apply Qfloor_le|exact H1]. }
  destruct v as [n d]. simpl in Hf0, Hf1. cbn [Qnum Qden Qfloor].
  assert (Hn : (0 ≤ n)%Z).
  { unfold Qle in H0. simpl in H0. lia. }
  rewrite Z.quot_div_nonneg by lia.
  rewrite Z.mod_small by lia.
  destruct (Z.leb_spec (n / Z.pos d) 2147483647); [done|lia].
Qed.

Lemma set_length_nonneg (v : Q) old : (0 <= v)%Q → set_length v old = Some v.
Proof.
  intros H. unfold set_length. apply Qle_bool_iff in H. by rewrite H.
Qed.

(** X8. The size of the canvas depends on when the start button is clicked.
    A click that comes after the manifest was handled leaves the canvas at
    the default 300 by 150 pixels, with no size in its style, for the rest
    of the session, the sizing step having found no canvas. A click that
    comes before it lets the sizing step find the canvas: the width asked
    for is [canvasWidth || manifest.width || 1280], the height is
    [manifest.height], a width override notwithstanding, or else
    [(width * 9) / 16]; when these are not negative and below [2^31], the
    canvas takes their integer parts as its size in pixels and the numbers
    themselves as its CSS size. *)
Theorem canvas_size_after_click P B s now :
  canvasRef s = None →
  (pc s ≠ AwaitManifest →
   ∀ inputs s', run P B inputs (handleStart now s) = inr s' →
     canvas_size s' = Some (300%Z, 150%Z, None, None)) ∧
  (pc s = AwaitManifest → isMounted s = true →
   ∀ m, fetch_json B (manifestUrl P) = inr m →
     let w := or_num (canvasWidth P) (or_num (width m) 1280) in
     let h := or_num (height m) (round64 (round64 (w * 9) / 16)) in
     (0 <= w)%Q → (w < 2147483648)%Q → (0 <= h)%Q → (h < 2147483648)%Q →
     canvas_size (setup_manifest P B (handleStart now s))
       = Some (Qfloor w, Qfloor h, Some w, Some h)).
Proof.
  intros Hc.
  destruct (handleStart_fields now s Hc)
    as (_ & _ & _ & Hi & Hp & _ & _ & _ & _ & Hcv & _).
  split.
  - intros Hpc inputs s' Hrun.
    rewrite (run_size P B inputs (handleStart now s) s'); [|by rewrite Hp|done].
    unfold canvas_size. by rewrite Hcv.
  - intros Hpc Hm m Hj w h Hw0 Hw1 Hh0 Hh1. unfold setup_manifest, canvas_size.
    rewrite Hj, Hi, Hm. simpl. rewrite Hcv. simpl.
    fold w. change (js_div (js_mul w 9) 16) with (round64 (round64 (w * 9) / 16)).
    fold h.
    by rewrite !set_dimension_floor, !set_length_nonneg.
Qed.

(** The concrete session clicked after its setup; and a click before the
    manifest arrives, with a canvas width of 100: the canvas is 100 by 56
    pixels, and 100 by 56.25 in CSS pixels. *)
Lemma canvas_size_after_click_witness :
  canvas_size demo_clicked = Some (300%Z, 150%Z, None, None) ∧
  ∃ h, canvas_size (setup_manifest narrow_props demo_browser
                      (handleStart 0 (mount (initial None))))
         = Some (100%Z, 56%Z, Some 100%Q, Some h) ∧
       (h == 225 # 4)%Q.
Proof.
  split.
  - refine (proj1 (canvas_size_after_click (demo_props false) demo_browser
                     demo_hidden 120 eq_refl)
              _ [] demo_clicked _).
    + vm_compute. discriminate.
    + vm_compute. reflexivity.
  - eexists. split.
    + refine (proj2 (canvas_size_after_click narrow_props demo_browser
                       (mount (initial None)) 0 eq_refl)
                eq_refl eq_refl demo_manifest eq_refl _ _ _ _);
        vm_compute; first [discriminate|reflexivity].
    + vm_compute. reflexivity.
Defined.

(** * The start button *)

Lemma cleanup_startTime s s' :
  cleanup s = inr s' → startTimeRef s' = startTimeRef s.
Proof.
  destruct s as [mr fr ar rr st cf cr im p rq nh tr].
  unfold cleanup. rewrite close_all_emits. intros H. injection H as <-.
  simpl.
  match goal with |- context [foldl ?f ?s0 ?l] =>
    assert (Hf : startTimeRef (foldl f s0 l) = startTimeRef s0) end.
  { match goal with |- context [foldl _ ?s0 ?l] => generalize s0, l end.
    clear. intros s0 l. revert s0.
    induction l as [|f l IH]; intros s0; simpl; [done|]. by rewrite IH. }
  rewrite Hf. by destruct rr, ar.
Qed.

(** The tick that finds the store empty, without loop. *)
Lemma refresh_on_empty P now s m h :
  manifestRef s = Some m →
  framesRef s = [] →
  rafQueue s = [h] →
  loop P = false →
  onEnd P = true →
  (0 <= effective_fps P m)%Q →
  (startTimeRef s <= now)%Q →
  trace (refresh P now s)
    = trace s ++ [DrawFrame (Some (-1)%Z)]
              ++ match rafRef s with Some h' => [CancelFrame h'] | None => [] end
              ++ [OnEnd] ∧
  rafQueue (refresh P now s) = [].
Proof.
  intros Hm Hf Hq Hloop Hend Hfps Hnow.
  rewrite (refresh_pop _ _ _ _ _ Hq).
  set (s1 := set_raf [] (nextHandle s) s).
  assert (Hge : (Z.of_nat (length (framesRef s1)) ≤ frame_index P m now s1)%Z).
  { change (framesRef s1) with (framesRef s). rewrite Hf.
    by apply (frame_index_nonneg P m s1 now). }
  destruct (tick_end_fields P now s1 m Hm Hge Hloop)
    as (_ & _ & _ & _ & _ & _ & _ & Hq2 & Ht2).
  rewrite Ht2, Hq2, Hend.
  change (framesRef s1) with (framesRef s). rewrite Hf.
  change (rafRef s1) with (rafRef s). change (trace s1) with (trace s).
  split; [done|]. by destruct (rafRef s).
Qed.

(** X9. A click on the start button while the setup's tick is scheduled
    leaves two requests outstanding, of which [rafRef] holds the newer
    one only. The cleanup then cancels that one: the older tick stays
    scheduled, runs after the unmount on the emptied store and, without
    loop, calls [onEnd]. *)
Theorem click_while_playing_orphans_tick P s m h t0 now :
  canvasRef s = None →
  manifestRef s = Some m →
  rafQueue s = [h] →
  h ≠ nextHandle s →
  loop P = false →
  onEnd P = true →
  (0 <= effective_fps P m)%Q →
  (t0 <= now)%Q →
  rafQueue (handleStart t0 s) = [h; nextHandle s] ∧
  rafRef (handleStart t0 s) = Some (nextHandle s) ∧
  ∃ s2, cleanup (handleStart t0 s) = inr s2 ∧
    isMounted s2 = false ∧
    rafQueue s2 = [h] ∧
    count_event is_OnEnd (trace (refresh P now s2))
      = S (count_event is_OnEnd (trace s2)) ∧
    rafQueue (refresh P now s2) = [].
Proof.
  intros Hc Hm Hq Hh Hloop Hend Hfps Hnow.
  destruct (handleStart_fields t0 s Hc)
    as (Hm1 & _ & _ & _ & _ & Hs1 & Hr1 & Hq1 & _).
  rewrite Hq in Hq1. simpl in Hq1.
  split_and!; [done|done|].
  destruct (cleanup_fields (handleStart t0 s))
    as (s2 & Hcl & Hi2 & Hf2 & Hm2 & _ & Hr2 & Hq2 & _).
  pose proof (cleanup_startTime _ _ Hcl) as Hs2.
  exists s2. split_and!; [done|done| | |].
  - rewrite Hq2, Hr1, Hq1.
    rewrite filter_cons_True by done.
    by rewrite filter_cons_False by (intros H; by apply H).
  - assert (Hq2' : rafQueue s2 = [h]).
    { rewrite Hq2, Hr1, Hq1. rewrite filter_cons_True by done.
      by rewrite filter_cons_False by (intros H; by apply H). }
    destruct (refresh_on_empty P now s2 m h) as [Ht _]; try done.
    { congruence. }
    { by rewrite Hs2, Hs1. }
    rewrite Ht, Hr2, Hr1, !count_event_app. unfold count_event at 2 3 4.
    simpl. lia.
  - assert (Hq2' : rafQueue s2 = [h]).
    { rewrite Hq2, Hr1, Hq1. rewrite filter_cons_True by done.
      by rewrite filter_cons_False by (intros H; by apply H). }
    destruct (refresh_on_empty P now s2 m h) as [_ Hq3]; try done.
    { congruence. }
    { by rewrite Hs2, Hs1. }
Qed.

Lemma click_while_playing_orphans_tick_witness :
  rafQueue demo_clicked = [1; 2] ∧
  rafRef demo_clicked = Some 2 ∧
  ∃ s2, cleanup demo_clicked = inr s2 ∧
    isMounted s2 = false ∧
    rafQueue s2 = [1] ∧
    count_event is_OnEnd (trace (refresh (demo_props false) 200 s2))
      = S (count_event is_OnEnd (trace s2)) ∧
    rafQueue (refresh (demo_props false) 200 s2) = [].
Proof.
  apply (click_while_playing_orphans_tick (demo_props false) demo_hidden
           demo_manifest 1 120 200).
  - vm_compute. reflexivity.
  - vm_compute. reflexivity.
  - vm_compute. reflexivity.
  - vm_compute. lia.
  - reflexivity.
  - reflexivity.
  - vm_compute. discriminate.
  - vm_compute. discriminate.
Defined.

(** X10. A click on the start button before the frames are loaded starts no
    playback. Before the manifest has arrived, the tick it schedules returns
    at once and schedules no other. Between the manifest and the frames, the
    tick finds the store empty and, without loop, calls [drawFrame(-1)] and
    then [onEnd]: the end is signalled before a frame was ever loaded. *)
Theorem click_before_frames P s t0 now :
  canvasRef s = None →
  framesRef s = [] →
  rafQueue s = [] →
  (t0 <= now)%Q →
  (manifestRef s = None →
   trace (refresh P now (handleStart t0 s)) = trace (handleStart t0 s) ∧
   rafQueue (refresh P now (handleStart t0 s)) = []) ∧
  (∀ m, manifestRef s = Some m →
     loop P = false → onEnd P = true → (0 <= effective_fps P m)%Q →
     trace (refresh P now (handleStart t0 s))
       = trace (handleStart t0 s) ++
         [DrawFrame (Some (-1)%Z); CancelFrame (nextHandle s); OnEnd] ∧
     rafQueue (refresh P now (handleStart t0 s)) = []).
Proof.
  intros Hc Hf Hq Hnow.
  destruct (handleStart_fields t0 s Hc)
    as (Hm1 & Hf1 & _ & _ & _ & Hs1 & Hr1 & Hq1 & _).
  rewrite Hq in Hq1. simpl in Hq1. split.
  - intros Hm. rewrite (refresh_pop _ _ _ _ _ Hq1).
    unfold tick. simpl. rewrite Hm1, Hm. done.
  - intros m Hm Hloop Hend Hfps.
    assert (Hm2 : manifestRef (handleStart t0 s) = Some m) by congruence.
    assert (Hf2 : framesRef (handleStart t0 s) = []) by congruence.
    assert (Hs2 : (startTimeRef (handleStart t0 s) <= now)%Q) by (by rewrite Hs1).
    destruct (refresh_on_empty P now (handleStart t0 s) m (nextHandle s)
                Hm2 Hf2 Hq1 Hloop Hend Hfps Hs2) as [Ht Hq2].
    rewrite Ht, Hr1. done.
Qed.

Lemma click_before_frames_witness :
  trace (refresh (demo_props false) 30 (handleStart 10 flaky_loading))
  = trace (handleStart 10 flaky_loading) ++
    [DrawFrame (Some (-1)%Z); CancelFrame 1; OnEnd].
Proof.
  refine (proj1 (proj2 (click_before_frames (demo_props false) flaky_loading
                          10 30 _ _ _ _) demo_manifest _ eq_refl eq_refl _)).
  - vm_compute. reflexivity.
  - vm_compute. reflexivity.
  - vm_compute. reflexivity.
  - vm_compute. discriminate.
  - vm_compute. reflexivity.
  - vm_compute. discriminate.
Defined.
